(** * SUAVE: planform of a multi-segment wing

    A shallow embedding of
    [trunk/SUAVE/Methods/Geometry/Two_Dimensional/Planform/wing_segmented_planform.py]
    and theorems about the quantities it packs onto the wing.

    Numbers.  The source computes with numpy [float64].  The embedding keeps
    the special values of IEEE arithmetic (the two infinities and NaN, and
    the rules by which they arise and propagate) and replaces the finite
    binary64 values by real numbers with exact arithmetic: rounding, overflow
    of finite results, and the sign of zero are abstracted away.  A nonzero
    finite number divided by zero gives the infinity that has the sign of the
    dividend, [0/0] gives NaN, as with a positive zero divisor in numpy.

    Arrays.  One-dimensional numpy arrays and Python lists are lists; slices
    [xs[1:]], [xs[:-1]], [xs[:-2]] are [tl], [removelast] and two
    [removelast]s.  Subscripts raise [IndexError] when out of range.

    Rounding.  Since rounding is left out, the theorems on arbitrary wings
    give an output in the operations of the program, one for one, or rest
    on what rounding keeps: special values, exceptions, the order of
    numbers, and operations whose result is exact ([x * 0], [x + 0],
    [x / 1], [2 * x], [tan 0], [arctan 0], [cos 0]).  Such a theorem holds
    of the rounded computation as it holds here.  A closed form that takes
    algebra to reach is stated there about the expression read over the
    real numbers, not about the output.  The lemmas that give an output of
    the idealisation as a real closed form serve the proofs, and the values
    on the example wings are those of the idealisation.  Lines 83 to 97 and
    126 use [+ - * /] only; module [Binary64] embeds them a second time on
    binary64 numbers, where a concrete wing is computed bit for bit. *)

From Stdlib Require Import Reals Lra Lia List Bool Arith QArith Qpower.
From Stdlib Require Floats Uint63.
Import ListNotations.

Open Scope R_scope.

(* ------------------------------------------------------------------ *)
(** * The program *)

(** ** Idealised float64 *)

Inductive float : Type :=
| Fin (r : R)
| PInf
| NInf
| NaN.

Definition fneg (x : float) : float :=
  match x with
  | Fin a => Fin (- a)
  | PInf => NInf
  | NInf => PInf
  | NaN => NaN
  end.

Definition fadd (x y : float) : float :=
  match x, y with
  | NaN, _ | _, NaN => NaN
  | Fin a, Fin b => Fin (a + b)
  | PInf, NInf | NInf, PInf => NaN
  | PInf, _ | _, PInf => PInf
  | NInf, _ | _, NInf => NInf
  end.

Definition fsub (x y : float) : float := fadd x (fneg y).

(** [inf_times s b]: the infinity [s] multiplied by the finite [b]. *)
Definition inf_times (s : float) (b : R) : float :=
  if Req_dec_T b 0 then NaN
  else if Rlt_dec 0 b then s else fneg s.

Definition fmul (x y : float) : float :=
  match x, y with
  | NaN, _ | _, NaN => NaN
  | Fin a, Fin b => Fin (a * b)
  | Fin a, PInf => inf_times PInf a
  | Fin a, NInf => inf_times NInf a
  | PInf, Fin b => inf_times PInf b
  | NInf, Fin b => inf_times NInf b
  | PInf, PInf | NInf, NInf => PInf
  | PInf, NInf | NInf, PInf => NInf
  end.

(** [inf_over s b]: the infinity [s] divided by the finite [b]. *)
Definition inf_over (s : float) (b : R) : float :=
  if Rlt_dec b 0 then fneg s else s.

Definition fdiv (x y : float) : float :=
  match x, y with
  | NaN, _ | _, NaN => NaN
  | Fin a, Fin b =>
      if Req_dec_T b 0 then
        if Req_dec_T a 0 then NaN
        else if Rlt_dec 0 a then PInf else NInf
      else Fin (a / b)
  | Fin _, PInf | Fin _, NInf => Fin 0
  | PInf, Fin b => inf_over PInf b
  | NInf, Fin b => inf_over NInf b
  | PInf, PInf | PInf, NInf | NInf, PInf | NInf, NInf => NaN
  end.

(** [x ** n] for a literal exponent [n]. *)
Fixpoint fpow (x : float) (n : nat) : float :=
  match n with
  | O => Fin 1
  | S m => fmul x (fpow x m)
  end.

Definition fcos (x : float) : float :=
  match x with Fin a => Fin (cos a) | _ => NaN end.

Definition ftan (x : float) : float :=
  match x with Fin a => Fin (tan a) | _ => NaN end.

Definition farctan (x : float) : float :=
  match x with
  | Fin a => Fin (atan a)
  | PInf => Fin (PI / 2)
  | NInf => Fin (- (PI / 2))
  | NaN => NaN
  end.

Definition isnan (x : float) : bool :=
  match x with NaN => true | _ => false end.

Definition isfinite (x : float) : bool :=
  match x with Fin _ => true | _ => false end.

(** The real number held by a finite float. *)
Definition val (x : float) : R :=
  match x with Fin a => a | _ => 0 end.

Declare Scope float_scope.
Delimit Scope float_scope with float.
Bind Scope float_scope with float.
Infix "+" := fadd : float_scope.
Infix "-" := fsub : float_scope.
Infix "*" := fmul : float_scope.
Infix "/" := fdiv : float_scope.
Notation "- x" := (fneg x) : float_scope.

(** Literals of the source; [0.2] and [0.25] stand for the exact fractions. *)
Definition f0 : float := Fin 0.
Definition f1 : float := Fin 1.
Definition f2 : float := Fin 2.
Definition f3 : float := Fin 3.
Definition f4 : float := Fin 4.
Definition f6 : float := Fin 6.
Definition f0_2 : float := Fin (2 / 10).
Definition f0_25 : float := Fin (25 / 100).

(** ** Arrays *)

Definition array := list float.

Fixpoint map2 {A B C : Type} (f : A -> B -> C) (xs : list A) (ys : list B)
  : list C :=
  match xs, ys with
  | x :: xs', y :: ys' => f x y :: map2 f xs' ys'
  | _, _ => []
  end.

(** Elementwise operators.  Every pair of arrays the function combines has
    the same length (see [panel_slices_length]), so no broadcasting between
    arrays of different shapes arises. *)
Definition aadd : array -> array -> array := map2 fadd.
Definition asub : array -> array -> array := map2 fsub.
Definition amul : array -> array -> array := map2 fmul.
Definition adiv : array -> array -> array := map2 fdiv.

(** Array with a scalar. *)
Definition smul (s : float) (xs : array) : array := map (fmul s) xs.
Definition amuls (xs : array) (s : float) : array := map (fun x => fmul x s) xs.
Definition adivs (xs : array) (s : float) : array := map (fun x => fdiv x s) xs.
Definition sadd (s : float) (xs : array) : array := map (fadd s) xs.
Definition apow (xs : array) (n : nat) : array := map (fun x => fpow x n) xs.
Definition aneg (xs : array) : array := map fneg xs.

(** [np.sum]: exact addition does not depend on the order of summation. *)
Definition np_sum (xs : array) : float := fold_right fadd f0 xs.

(** [np.cumsum] *)
Fixpoint cumsum_from (acc : float) (xs : array) : array :=
  match xs with
  | [] => []
  | x :: t => let acc' := fadd acc x in acc' :: cumsum_from acc' t
  end.

Definition np_cumsum (xs : array) : array :=
  match xs with
  | [] => []
  | x :: t => x :: cumsum_from x t
  end.

(** [xs[:-2]] *)
Definition drop_last2 {A : Type} (xs : list A) : list A :=
  removelast (removelast xs).

(** ** Exceptions *)

(** [IndexError] and [TypeError] are the exceptions the function can run
    into; [ValueError] is what a check of its input would raise, and the
    function has none. *)
Inductive exn : Type :=
| IndexError
| TypeError
| ValueError.

Inductive result (A : Type) : Type :=
| OK (a : A)
| Raise (e : exn).
Arguments OK {A} a.
Arguments Raise {A} e.

Definition bind {A B : Type} (m : result A) (k : A -> result B) : result B :=
  match m with
  | OK a => k a
  | Raise e => Raise e
  end.

Notation "x <- m ;; k" := (bind m (fun x => k))
  (at level 61, m at next level, right associativity).

(** [xs[i]] for [i >= 0]. *)
Definition getitem {A : Type} (xs : list A) (i : nat) : result A :=
  match nth_error xs i with
  | Some x => OK x
  | None => Raise IndexError
  end.

(** [xs[-1]] *)
Definition getlast {A : Type} (xs : list A) : result A :=
  match xs with
  | [] => Raise IndexError
  | x :: t => OK (last t x)
  end.

Fixpoint mapM {A B : Type} (f : A -> result B) (xs : list A)
  : result (list B) :=
  match xs with
  | [] => OK []
  | x :: t => y <- f x ;; ys <- mapM f t ;; OK (y :: ys)
  end.

(** ** The wing *)

Module Segment.
Record t : Type := mk {
  percent_span_location : float;
  twist : float;
  root_chord_percent : float;
  sweeps_quarter_chord : float;
  thickness_to_chord : float;
  dihedral_outboard : float
}.
End Segment.

(** What [np.dot(np.transpose(Cxys), As)] can be: a vector of three
    components when there is at least one panel, a numpy scalar when
    [Cxys] is empty. *)
Inductive ndvalue : Type :=
| Scalar (x : float)
| Vec3 (x y z : float).

Record Wing : Type := mkWing {
  (* inputs *)
  spans_projected : float;
  chords_root : float;
  symmetric : bool;
  Segments : list Segment.t;
  (* outputs *)
  areas_reference : float;
  areas_wetted : float;
  aspect_ratio : float;
  spans_total : float;
  chords_mean_geometric : float;
  chords_mean_aerodynamic : float;
  chords_tip : float;
  taper : float;
  sweeps_quarter_chord : float;
  sweeps_leading_edge : float;
  thickness_to_chord : float;
  aerodynamic_center : ndvalue;
  total_length : float
}.

(** ** segment_centroid *)

Definition segment_centroid
  (le_sweep seg_span dx dy dz taper A mac dihedral : float)
  : float * float * float :=
  let cy := (seg_span / f6 * ((f1 + f2 * taper) / (f1 + taper)))%float in
  let cx := (mac * f0_25 + cy * ftan le_sweep)%float in
  let cz := (cy * ftan dihedral)%float in
  ((cx + dx)%float, (cy + dy)%float, (cz + dz)%float).

(** ** wing_segmented_planform *)

(** [1 + sym] *)
Definition one_plus (sym : bool) : float := if sym then f2 else f1.

(** [np.dot(np.transpose(Cxys), As)]: [Cxys] and [As] have one entry per
    panel.  With no panel this is the product of two empty vectors, the
    scalar 0; otherwise the rows of the transposed matrix are the [x], the
    [y] and the [z] of the centroids. *)
Definition dot_transpose (Cxys : list (float * float * float)) (As : array)
  : ndvalue :=
  match Cxys with
  | [] => Scalar (np_sum (amul [] As))
  | _ =>
      let xs := map (fun c => fst (fst c)) Cxys in
      let ys := map (fun c => snd (fst c)) Cxys in
      let zs := map (fun c => snd c) Cxys in
      Vec3 (np_sum (amul xs As)) (np_sum (amul ys As)) (np_sum (amul zs As))
  end.

Definition nd_divs (v : ndvalue) (s : float) : ndvalue :=
  match v with
  | Scalar x => Scalar (x / s)
  | Vec3 x y z => Vec3 (x / s) (y / s) (z / s)
  end.

(** [v[1] = x]; a numpy scalar does not support item assignment. *)
Definition nd_set1 (v : ndvalue) (x : float) : result ndvalue :=
  match v with
  | Scalar _ => Raise TypeError
  | Vec3 a _ c => OK (Vec3 a x c)
  end.

(** The arrays and scalars computed between "Unpack" and "Pack stuff". *)
Record Locals : Type := mkLocals {
  l_semispan : float;
  l_lengths_ndim : array;
  l_lengths_dim : array;
  l_chords_dim : array;
  l_tapers : array;
  l_As : array;
  l_wet_area : float;
  l_ref_area : float;
  l_AR : float;
  l_total_len : float;
  l_mgc : float;
  l_integral : array;
  l_panel_mac : array;
  l_MAC : float;
  l_lamda : float;
  l_ct : float;
  l_t_c : float;
  l_le_sweeps : array;
  l_c_4_sweep : float;
  l_le_sweep_total : float;
  l_dxs : array;
  l_dys : array;
  l_dzs : array
}.

Definition locals (wing : Wing) : Locals :=
  let span := spans_projected wing in
  let RC := chords_root wing in
  let sym := symmetric wing in
  let segs := Segments wing in
  let span_locs := map Segment.percent_span_location segs in
  let sweeps := map Segment.sweeps_quarter_chord segs in
  let dihedrals := map Segment.dihedral_outboard segs in
  let chords := map Segment.root_chord_percent segs in
  let t_cs := map Segment.thickness_to_chord segs in
  (* Basic calcs *)
  let semispan := (span / one_plus sym)%float in
  let lengths_ndim := asub (tl span_locs) (removelast span_locs) in
  let lengths_dim := amuls lengths_ndim semispan in
  let chords_dim := smul RC chords in
  let tapers := adiv (tl chords) (removelast chords) in
  (* areas of each segment *)
  let As :=
    smul RC (asub (amul lengths_dim (removelast chords))
                  (adivs (amul (asub (removelast chords) (tl chords))
                               lengths_dim) f2)) in
  let A_wets :=
    amul (smul f2 (sadd f1 (smul f0_2 (removelast t_cs)))) As in
  let wet_area := np_sum A_wets in
  let ref_area := (np_sum As * f2)%float in
  let AR := (fpow span 2 / ref_area)%float in
  (* total span *)
  let lens := adiv lengths_dim (map fcos (removelast dihedrals)) in
  let total_len := (np_sum lens * one_plus sym)%float in
  let mgc := (ref_area / span)%float in
  (* mean aerodynamic chord *)
  let A := removelast chords_dim in
  let B := adiv (asub A (tl chords_dim)) (aneg lengths_ndim) in
  let C := removelast span_locs in
  let integral0 :=
    adiv (asub (apow (aadd A (amul B (asub (tl span_locs) C))) 3)
               (apow (aadd A (amul B (asub (removelast span_locs) C))) 3))
         (smul f3 B) in
  let integral :=
    map2 (fun I al => if isnan I then (fpow (fst al) 2 * snd al)%float else I)
         integral0 (combine A lengths_ndim) in
  let panel_mac :=
    adiv (amuls (amul integral lengths_dim) (one_plus sym)) As in
  let MAC := (semispan * one_plus sym / ref_area * np_sum integral)%float in
  let lamda := (f2 * mgc / RC - f1)%float in
  let ct := (lamda * RC)%float in
  let t_c := (np_sum (amul As (removelast t_cs)) / (ref_area / f2))%float in
  (* leading edge sweeps *)
  let r_offsets := adivs (removelast chords_dim) f4 in
  let t_offsets := adivs (tl chords_dim) f4 in
  let le_sweeps :=
    map farctan
        (adiv (asub (aadd r_offsets
                          (amul (map ftan (removelast sweeps)) lengths_dim))
                    t_offsets)
              lengths_dim) in
  let c_4_sweep :=
    farctan (np_sum (amul lengths_ndim (map ftan (removelast sweeps)))) in
  let le_sweep_total :=
    farctan (np_sum (amul lengths_ndim (map ftan le_sweeps))) in
  (* offsets of the panel roots *)
  let dxs :=
    np_cumsum (f0 :: amul (map ftan (removelast le_sweeps))
                          (removelast lengths_dim)) in
  let dys := np_cumsum (f0 :: removelast lengths_dim) in
  let dzs :=
    np_cumsum (f0 :: amul (map ftan (drop_last2 dihedrals))
                          (removelast lengths_dim)) in
  mkLocals semispan lengths_ndim lengths_dim chords_dim tapers As wet_area
           ref_area AR total_len mgc integral panel_mac MAC lamda ct t_c
           le_sweeps c_4_sweep le_sweep_total dxs dys dzs.

(** The loop [for i in range(len(lengths_dim))] that fills [Cxys]; the
    subscripts are evaluated from left to right. *)
Definition centroids (wing : Wing) (L : Locals)
  : result (list (float * float * float)) :=
  let dihedrals := map Segment.dihedral_outboard (Segments wing) in
  mapM (fun i =>
          le <- getitem (l_le_sweeps L) i ;;
          len <- getitem (l_lengths_dim L) i ;;
          dx <- getitem (l_dxs L) i ;;
          dy <- getitem (l_dys L) i ;;
          dz <- getitem (l_dzs L) i ;;
          tp <- getitem (l_tapers L) i ;;
          Ai <- getitem (l_As L) i ;;
          pm <- getitem (l_panel_mac L) i ;;
          dh <- getitem dihedrals i ;;
          OK (segment_centroid le (len * one_plus (symmetric wing))%float
                dx dy dz tp Ai pm dh))
       (seq 0 (length (l_lengths_dim L))).

(** "Pack stuff": the assignments to the fields of [wing]. *)
Definition pack (wing : Wing) (L : Locals) (aerodynamic_center : ndvalue)
  (total_length : float) : Wing :=
  {| spans_projected := spans_projected wing;
     chords_root := chords_root wing;
     symmetric := symmetric wing;
     Segments := Segments wing;
     areas_reference := l_ref_area L;
     areas_wetted := l_wet_area L;
     aspect_ratio := l_AR L;
     spans_total := l_total_len L;
     chords_mean_geometric := l_mgc L;
     chords_mean_aerodynamic := l_MAC L;
     chords_tip := l_ct L;
     taper := l_lamda L;
     sweeps_quarter_chord := l_c_4_sweep L;
     sweeps_leading_edge := l_le_sweep_total L;
     thickness_to_chord := l_t_c L;
     aerodynamic_center := aerodynamic_center;
     total_length := total_length |}.

(** The wing is mutated only by the assignments at the end: when an
    exception is raised before them the record is left as it was, and the
    model returns the exception alone. *)
Definition wing_segmented_planform (wing : Wing) : result Wing :=
  let L := locals wing in
  let sym := symmetric wing in
  Cxys <- centroids wing L ;;
  let ac0 :=
    nd_divs (dot_transpose Cxys (l_As L)) (l_ref_area L / one_plus sym)%float in
  aerodynamic_center <- (if sym then nd_set1 ac0 f0 else OK ac0) ;;
  last_chord <- getlast (map Segment.root_chord_percent (Segments wing)) ;;
  let total_length :=
    (ftan (l_le_sweep_total L) * l_semispan L
     + last_chord * chords_root wing)%float in
  OK (pack wing L aerodynamic_center total_length).

(* ------------------------------------------------------------------ *)
(** * Quantities the theorems are stated with *)

(** ** Panels

    [N] segments bound [N-1] panels; panel [i] lies between segment [i]
    (inboard) and segment [i+1] (outboard).  The per-panel arrays of the
    function pair a [[:-1]] slice with a [[1:]] slice. *)

Definition panels {A : Type} (l : list A) : list (A * A) :=
  combine (removelast l) (tl l).

(** The entry of each per-panel array as a function of the panel. *)

Definition panel_length_ndim (p : Segment.t * Segment.t) : float :=
  (Segment.percent_span_location (snd p)
   - Segment.percent_span_location (fst p))%float.

Definition panel_length_dim (semispan : float) (p : Segment.t * Segment.t)
  : float :=
  (panel_length_ndim p * semispan)%float.

Definition panel_area (RC semispan : float) (p : Segment.t * Segment.t)
  : float :=
  (RC * (panel_length_dim semispan p * Segment.root_chord_percent (fst p)
         - (Segment.root_chord_percent (fst p)
            - Segment.root_chord_percent (snd p))
           * panel_length_dim semispan p / f2))%float.

Definition panel_wet (RC semispan : float) (p : Segment.t * Segment.t)
  : float :=
  (f2 * (f1 + f0_2 * Segment.thickness_to_chord (fst p))
   * panel_area RC semispan p)%float.

Definition panel_len (semispan : float) (p : Segment.t * Segment.t) : float :=
  (panel_length_dim semispan p / fcos (Segment.dihedral_outboard (fst p)))%float.

Definition panel_B (RC : float) (p : Segment.t * Segment.t) : float :=
  ((RC * Segment.root_chord_percent (fst p)
    - RC * Segment.root_chord_percent (snd p))
   / - panel_length_ndim p)%float.

Definition panel_integral0 (RC : float) (p : Segment.t * Segment.t) : float :=
  let A := (RC * Segment.root_chord_percent (fst p))%float in
  let B := panel_B RC p in
  let C := Segment.percent_span_location (fst p) in
  ((fpow (A + B * (Segment.percent_span_location (snd p) - C)) 3
    - fpow (A + B * (Segment.percent_span_location (fst p) - C)) 3)
   / (f3 * B))%float.

Definition panel_integral (RC : float) (p : Segment.t * Segment.t) : float :=
  if isnan (panel_integral0 RC p)
  then (fpow (RC * Segment.root_chord_percent (fst p)) 2
        * panel_length_ndim p)%float
  else panel_integral0 RC p.

(** ** Well-formed input *)

Definition span_loc (g : Segment.t) : R := val (Segment.percent_span_location g).
Definition chord (g : Segment.t) : R := val (Segment.root_chord_percent g).
Definition thick (g : Segment.t) : R := val (Segment.thickness_to_chord g).

Definition finite_segment (g : Segment.t) : bool :=
  isfinite (Segment.percent_span_location g)
  && isfinite (Segment.twist g)
  && isfinite (Segment.root_chord_percent g)
  && isfinite (Segment.sweeps_quarter_chord g)
  && isfinite (Segment.thickness_to_chord g)
  && isfinite (Segment.dihedral_outboard g).

(** The preconditions of the planform computation: at least two segments,
    finite data, positive root chord, span and chord fractions, strictly
    increasing span fractions. *)
Record valid_wing (w : Wing) : Prop := {
  valid_span : isfinite (spans_projected w) = true;
  valid_span_pos : 0 < val (spans_projected w);
  valid_root : isfinite (chords_root w) = true;
  valid_root_pos : 0 < val (chords_root w);
  valid_count : (2 <= length (Segments w))%nat;
  valid_finite : forallb finite_segment (Segments w) = true;
  valid_chords : Forall (fun g => 0 < chord g) (Segments w);
  valid_increasing :
    Forall (fun p => span_loc (fst p) < span_loc (snd p)) (panels (Segments w))
}.

(** The inputs of a wing: everything the function reads. *)
Definition same_inputs (w1 w2 : Wing) : Prop :=
  spans_projected w1 = spans_projected w2
  /\ chords_root w1 = chords_root w2
  /\ symmetric w1 = symmetric w2
  /\ Segments w1 = Segments w2.

(** The wing after the call, or the wing as it was when the call raised. *)
Definition after_call (w : Wing) : Wing :=
  match wing_segmented_planform w with
  | OK w' => w'
  | Raise _ => w
  end.

(** ** Real-valued panel quantities *)

(** [1 + sym] as a real number. *)
Definition one_plus_R (sym : bool) : R := if sym then 2 else 1.

Definition Rsum (xs : list R) : R := fold_right Rplus 0 xs.

(** Area of the trapezoid panel [p]. *)
Definition panel_area_R (RC semispan : R) (p : Segment.t * Segment.t) : R :=
  let len := (span_loc (snd p) - span_loc (fst p)) * semispan in
  RC * (len * chord (fst p) - (chord (fst p) - chord (snd p)) * len / 2).

(** The integral of the squared chord over the panel, in span fraction:
    [(s' - s) * (A^2 + A*A' + A'^2) / 3] for the chords [A] and [A'] at the
    two ends; on an untapered panel this is [A^2 * (s' - s)]. *)
Definition panel_integral_R (RC : R) (p : Segment.t * Segment.t) : R :=
  let A := RC * chord (fst p) in
  let A' := RC * chord (snd p) in
  (span_loc (snd p) - span_loc (fst p)) * (A ^ 2 + A * A' + A' ^ 2) / 3.

(** ** Quantities by segment index, as the specification writes them *)

(** Stands for [segs[i]] where [i] is out of range; never reached below. *)
Definition no_segment : Segment.t := Segment.mk NaN NaN NaN NaN NaN NaN.

Definition segment_at (segs : list Segment.t) (i : nat) : Segment.t :=
  nth i segs no_segment.

Definition chord_fraction (segs : list Segment.t) (i : nat) : R :=
  chord (segment_at segs i).

Definition panel_span_length (semispan : R) (segs : list Segment.t) (i : nat)
  : R :=
  (span_loc (segment_at segs (S i)) - span_loc (segment_at segs i)) * semispan.

(** [area[i] = root_chord * (panel_span_length[i]*chord_fraction[i]
     - (chord_fraction[i]-chord_fraction[i+1]) * panel_span_length[i] / 2)] *)
Definition area (RC semispan : R) (segs : list Segment.t) (i : nat) : R :=
  RC * (panel_span_length semispan segs i * chord_fraction segs i
        - (chord_fraction segs i - chord_fraction segs (S i))
          * panel_span_length semispan segs i / 2).

(** [panel_span_length[i] / cos(dihedral[i])], in floats. *)
Definition true_length (semispan : float) (segs : list Segment.t) (i : nat)
  : float :=
  ((Segment.percent_span_location (segment_at segs (S i))
    - Segment.percent_span_location (segment_at segs i)) * semispan
   / fcos (Segment.dihedral_outboard (segment_at segs i)))%float.

Definition set_dihedral (g : Segment.t) (d : float) : Segment.t :=
  Segment.mk (Segment.percent_span_location g) (Segment.twist g)
    (Segment.root_chord_percent g) (Segment.sweeps_quarter_chord g)
    (Segment.thickness_to_chord g) d.

(** The segments with the dihedral of the last one replaced by [d]. *)
Definition with_last_dihedral (segs : list Segment.t) (d : float)
  : list Segment.t :=
  removelast segs ++ [set_dihedral (last segs no_segment) d].

(** ** The aerodynamic center as a weighted sum

    [weighted comp Cxys As] is the sum over the panels of one component of
    the centroid times the panel area. *)

Definition cx_of (c : float * float * float) : float := fst (fst c).
Definition cy_of (c : float * float * float) : float := snd (fst c).
Definition cz_of (c : float * float * float) : float := snd c.

Definition weighted (comp : float * float * float -> float)
  (Cxys : list (float * float * float)) (As : array) : float :=
  np_sum (map2 (fun c a => (comp c * a)%float) Cxys As).

(** The weighted sums divided by [d], the spanwise component replaced by
    zero on a symmetric wing. *)
Definition normalised_center (sym : bool) (Cxys : list (float * float * float))
  (As : array) (d : float) : ndvalue :=
  Vec3 (weighted cx_of Cxys As / d)
       (if sym then f0 else (weighted cy_of Cxys As / d)%float)
       (weighted cz_of Cxys As / d).

(** The weighted sums divided by half the reference area, whatever the
    symmetry flag. *)
Definition center_over_half_reference (Cxys : list (float * float * float))
  (As : array) (ref_area : float) : ndvalue :=
  let d := (ref_area / f2)%float in
  Vec3 (weighted cx_of Cxys As / d) (weighted cy_of Cxys As / d)
       (weighted cz_of Cxys As / d).

(** ** More real-valued views of the input *)

Definition sweep (g : Segment.t) : R := val (Segment.sweeps_quarter_chord g).
Definition dihedral (g : Segment.t) : R := val (Segment.dihedral_outboard g).

(** [segs[-1]]. *)
Definition last_segment (segs : list Segment.t) : Segment.t :=
  last segs no_segment.

(** ** Expressions of the source over the real numbers

    The per-panel expressions of lines 93 and 113 to 115 with every
    operation read as the exact operation on real numbers, as
    [panel_area_R] reads line 90.  They say what the program would compute
    without rounding; they are not outputs of the program. *)

(** [2*(1+0.2*t_cs[i])*As[i]] *)
Definition panel_wet_R (RC semispan : R) (p : Segment.t * Segment.t) : R :=
  2 * (1 + 2 / 10 * thick (fst p)) * panel_area_R RC semispan p.



(** The leading edge sweep of the panel [p], line 131. *)
Definition panel_le_sweep (RC semispan : float) (p : Segment.t * Segment.t)
  : float :=
  farctan ((RC * Segment.root_chord_percent (fst p) / f4
            + ftan (Segment.sweeps_quarter_chord (fst p))
              * panel_length_dim semispan p
            - RC * Segment.root_chord_percent (snd p) / f4)
           / panel_length_dim semispan p)%float.

(** ** Example wings

    All of them have root chord 1; segments have thickness ratio 0.1 and no
    twist. *)

Definition seg (s c sweep t_c dihedral : R) : Segment.t :=
  Segment.mk (Fin s) (Fin 0) (Fin c) (Fin sweep) (Fin t_c) (Fin dihedral).

(** A wing on which nothing has been computed yet. *)
Definition fresh_wing (span RC : float) (sym : bool) (segs : list Segment.t)
  : Wing :=
  mkWing span RC sym segs f0 f0 f0 f0 f0 f0 f0 f0 f0 f0 f0 (Scalar f0) f0.

(** The known regression case of the specification. *)
Definition regression_wing : Wing :=
  fresh_wing (Fin 10) (Fin 1) true
    [seg 0 1 0 (1 / 10) 0; seg (1 / 2) (3 / 5) 0 (1 / 10) 0;
     seg 1 (3 / 10) 0 (1 / 10) 0].

(** One segment, no panel. *)
Definition one_segment_wing : Wing :=
  fresh_wing (Fin 10) (Fin 1) false [seg 0 1 0 (1 / 10) 0].

(** A symmetric tapered wing with sweep and dihedral. *)
Definition symmetric_swept_wing : Wing :=
  fresh_wing (Fin 10) (Fin 1) true
    [seg 0 1 (1 / 2) (1 / 10) (1 / 10); seg 1 (1 / 2) (1 / 2) (1 / 10) (1 / 10)].

(** A constant-chord wing of span 10 and chord 1, two segments. *)
Definition rectangular_wing (sym : bool) : Wing :=
  fresh_wing (Fin 10) (Fin 1) sym
    [seg 0 1 0 (1 / 10) 0; seg 1 1 0 (1 / 10) 0].


(** A straight trapezoid of span 10, root chord 1 and tip chord 1/2. *)
Definition trapezoid_wing (sym : bool) : Wing :=
  fresh_wing (Fin 10) (Fin 1) sym
    [seg 0 1 0 (1 / 10) 0; seg 1 (1 / 2) 0 (1 / 10) 0].

(** The segments of [trapezoid_wing] with [symmetric = False] and
    projected span [b]. *)
Definition trapezoid_nonsymmetric (b : R) : Wing :=
  fresh_wing (Fin b) (Fin 1) false
    [seg 0 1 0 (1 / 10) 0; seg 1 (1 / 2) 0 (1 / 10) 0].


(** The planform of [trapezoid_wing true] laid out tip to tip: three
    segments, the root in the middle, the same chords at the same places. *)
Definition full_span_wing : Wing :=
  fresh_wing (Fin 10) (Fin 1) false
    [seg 0 (1 / 2) 0 (1 / 10) 0; seg (1 / 2) 1 0 (1 / 10) 0;
     seg 1 (1 / 2) 0 (1 / 10) 0].

(** Three segments with dihedrals [d0], [d1] and 0. *)
Definition dihedral_wing (d0 d1 : R) : Wing :=
  fresh_wing (Fin 10) (Fin 1) true
    [seg 0 1 0 (1 / 10) d0; seg (1 / 2) (3 / 5) 0 (1 / 10) d1;
     seg 1 (3 / 10) 0 (1 / 10) 0].

(** [regression_wing] with thickness ratios 0.12, 0.10 and 0.08. *)
Definition thick_regression_wing : Wing :=
  fresh_wing (Fin 10) (Fin 1) true
    [seg 0 1 0 (12 / 100) 0; seg (1 / 2) (3 / 5) 0 (10 / 100) 0;
     seg 1 (3 / 10) 0 (8 / 100) 0].

(** A wing whose chord steps from 1 to 1/2 at mid span: two segments at the
    same span fraction. *)
Definition stepped_wing : Wing :=
  fresh_wing (Fin 10) (Fin 1) true
    [seg 0 1 0 (1 / 10) 0; seg (1 / 2) 1 0 (1 / 10) 0;
     seg (1 / 2) (1 / 2) 0 (1 / 10) 0; seg 1 (1 / 2) 0 (1 / 10) 0].

(** [rectangular_wing true] with one more segment at mid span: the same
    planform in two panels. *)
Definition split_rectangular_wing : Wing :=
  fresh_wing (Fin 10) (Fin 1) true
    [seg 0 1 0 (1 / 10) 0; seg (1 / 2) 1 0 (1 / 10) 0; seg 1 1 0 (1 / 10) 0].

(** The wing with every dihedral replaced by 0. *)
Definition flattened (w : Wing) : Wing :=
  mkWing (spans_projected w) (chords_root w) (symmetric w)
    (map (fun g => set_dihedral g f0) (Segments w))
    (areas_reference w) (areas_wetted w) (aspect_ratio w) (spans_total w)
    (chords_mean_geometric w) (chords_mean_aerodynamic w) (chords_tip w)
    (taper w) (sweeps_quarter_chord w) (sweeps_leading_edge w)
    (thickness_to_chord w) (aerodynamic_center w) (total_length w).

(* ------------------------------------------------------------------ *)
(** * Lines 83 to 97 and 126 in binary64

    The areas, the wetted area, the reference area and the thickness ratio
    use [+ - * /] only.  This second embedding of those lines computes
    with the binary64 numbers of Rocq ([PrimFloat]), whose operations round
    as IEEE 754 prescribes and as numpy's do, so that a concrete input can
    be run bit for bit. *)

Module Binary64.

Definition f64 : Set := PrimFloat.float.
Definition array : Set := list f64.

(** The float of an integer. *)
Definition of_Z (n : Z) : f64 := PrimFloat.of_uint63 (Uint63.of_Z n).

(** The float nearest to [n / d], for integers below [2^53]: the value of a
    decimal literal of Python, [0.12] being [dec 12 100]. *)
Definition dec (n d : Z) : f64 := PrimFloat.div (of_Z n) (of_Z d).

Definition asub (xs ys : array) : array := map2 PrimFloat.sub xs ys.
Definition amul (xs ys : array) : array := map2 PrimFloat.mul xs ys.
Definition smul (c : f64) (xs : array) : array := map (PrimFloat.mul c) xs.
Definition sadd (c : f64) (xs : array) : array := map (PrimFloat.add c) xs.
Definition amuls (xs : array) (c : f64) : array :=
  map (fun x => PrimFloat.mul x c) xs.
Definition adivs (xs : array) (c : f64) : array :=
  map (fun x => PrimFloat.div x c) xs.

(** [np.sum]: the entries are added in order (numpy adds blocks of eight
    pairwise only on longer arrays). *)
Definition np_sum (xs : array) : f64 := fold_left PrimFloat.add xs (of_Z 0).

Definition one_plus (sym : bool) : f64 := if sym then of_Z 2 else of_Z 1.

Record Areas : Set := mkAreas {
  As : array;
  wet_area : f64;
  ref_area : f64;
  t_c : f64
}.

Definition areas (span RC : f64) (sym : bool) (span_locs chords t_cs : array)
  : Areas :=
  let semispan := PrimFloat.div span (one_plus sym) in
  let lengths_ndim := asub (tl span_locs) (removelast span_locs) in
  let lengths_dim := amuls lengths_ndim semispan in
  let As :=
    smul RC (asub (amul lengths_dim (removelast chords))
                  (adivs (amul (asub (removelast chords) (tl chords))
                               lengths_dim) (of_Z 2))) in
  let A_wets :=
    amul (smul (of_Z 2) (sadd (of_Z 1) (smul (dec 2 10) (removelast t_cs))))
         As in
  let wet_area := np_sum A_wets in
  let ref_area := PrimFloat.mul (np_sum As) (of_Z 2) in
  let t_c :=
    PrimFloat.div (np_sum (amul As (removelast t_cs)))
                  (PrimFloat.div ref_area (of_Z 2)) in
  mkAreas As wet_area ref_area t_c.

(** The rational number a finite float stands for. *)
Definition to_Q (x : f64) : Q :=
  match FloatOps.Prim2SF x with
  | SpecFloat.S754_finite s m e =>
      (if s then -1 else 1) * (inject_Z (Zpos m) * Qpower 2 e)
  | _ => 0
  end%Q.

(** [thick_regression_wing]: span 10, root chord 1, symmetric, span
    fractions 0, 0.5, 1, chord fractions 1, 0.6, 0.3, thickness ratios
    0.12, 0.10, 0.08. *)
Definition thick_regression_areas : Areas :=
  areas (of_Z 10) (of_Z 1) true
    [of_Z 0; dec 5 10; of_Z 1] [of_Z 1; dec 6 10; dec 3 10]
    [dec 12 100; dec 10 100; dec 8 100].

End Binary64.

(* ------------------------------------------------------------------ *)
(** * Lemmas *)

(** ** Arithmetic of finite floats *)

Arguments fadd : simpl never.
Arguments fsub : simpl never.
Arguments fmul : simpl never.
Arguments fdiv : simpl never.
Arguments fneg : simpl never.
Arguments fpow : simpl never.

Lemma fadd_fin a b : fadd (Fin a) (Fin b) = Fin (a + b).
Proof. reflexivity. Qed.

Lemma fsub_fin a b : fsub (Fin a) (Fin b) = Fin (a - b).
Proof. reflexivity. Qed.

Lemma fmul_fin a b : fmul (Fin a) (Fin b) = Fin (a * b).
Proof. reflexivity. Qed.

Lemma fneg_fin a : fneg (Fin a) = Fin (- a).
Proof. reflexivity. Qed.

Lemma fpow_fin a n : fpow (Fin a) n = Fin (a ^ n).
Proof.
  induction n as [|n IH]; [reflexivity|].
  change (fpow (Fin a) (S n)) with (fmul (Fin a) (fpow (Fin a) n)).
  now rewrite IH.
Qed.

Lemma fdiv_fin a b : b <> 0 -> fdiv (Fin a) (Fin b) = Fin (a / b).
Proof.
  intros Hb. unfold fdiv.
  destruct (Req_dec_T b 0) as [E|_]; [contradiction|reflexivity].
Qed.

Lemma fdiv_0_0 a b : a = 0 -> b = 0 -> fdiv (Fin a) (Fin b) = NaN.
Proof.
  intros -> ->. unfold fdiv.
  destruct (Req_dec_T 0 0) as [_|N]; [reflexivity|now contradiction N].
Qed.

Lemma fdiv_pos_0 a b : 0 < a -> b = 0 -> fdiv (Fin a) (Fin b) = PInf.
Proof.
  intros Ha ->. unfold fdiv.
  destruct (Req_dec_T 0 0) as [_|N]; [|now contradiction N].
  destruct (Req_dec_T a 0) as [E|_]; [lra|].
  destruct (Rlt_dec 0 a); [reflexivity|contradiction].
Qed.

Lemma isfinite_val x : isfinite x = true -> x = Fin (val x).
Proof. destruct x; simpl; intros H; try discriminate; reflexivity. Qed.

(** Division by floating-point zero never gives a finite number. *)
Lemma fdiv_zero_not_finite x : isfinite (fdiv x (Fin 0)) = false.
Proof.
  destruct x as [a| | |]; unfold fdiv; try reflexivity.
  - destruct (Req_dec_T 0 0) as [_|N]; [|now contradiction N].
    destruct (Req_dec_T a 0); [reflexivity|].
    destruct (Rlt_dec 0 a); reflexivity.
  - unfold inf_over. destruct (Rlt_dec 0 0); [lra|reflexivity].
  - unfold inf_over. destruct (Rlt_dec 0 0); [lra|reflexivity].
Qed.

(** Rewrites one arithmetic operation on finite operands; side conditions
    on divisors are left to [lra]. *)
Ltac fin_step :=
  first [ rewrite fadd_fin | rewrite fsub_fin | rewrite fmul_fin
        | rewrite fneg_fin | rewrite fpow_fin
        | rewrite fdiv_fin by lra | rewrite fdiv_0_0 by lra ].

Ltac fin_eval := repeat (fin_step || (progress cbn [isnan])).

(** The value of a closed arithmetic expression over the reals, computed
    over the rationals. *)
Ltac r2q e :=
  lazymatch e with
  | Rplus ?a ?b => let a' := r2q a in let b' := r2q b in constr:(Qplus a' b')
  | Rminus ?a ?b => let a' := r2q a in let b' := r2q b in constr:(Qminus a' b')
  | Rmult ?a ?b => let a' := r2q a in let b' := r2q b in constr:(Qmult a' b')
  | Rdiv ?a ?b => let a' := r2q a in let b' := r2q b in constr:(Qdiv a' b')
  | Ropp ?a => let a' := r2q a in constr:(Qopp a')
  | pow ?a ?n => let a' := r2q a in constr:(Qpower a' (Z.of_nat n))
  | IZR ?z => constr:(inject_Z z)
  end.

Ltac q2r q :=
  lazymatch q with
  | Qmake ?n 1%positive => constr:(IZR n)
  | Qmake ?n ?d => constr:(IZR n / IZR (Zpos d))
  end.

Ltac norm_closed e :=
  let q := r2q e in
  let v := eval vm_compute in (Qred q) in
  let r := q2r v in
  tryif constr_eq e r then fail
  else replace e with r by (solve [lra | field; lra]).

Ltac fin_norm :=
  repeat match goal with
         | |- context [Fin ?e] => norm_closed e
         | |- context [tan ?e] => norm_closed e
         | |- context [atan ?e] => norm_closed e
         | |- context [cos ?e] => norm_closed e
         end.

(** Evaluates the float operations of a goal on concrete input. *)
Ltac fin_compute :=
  cbn; unfold f0, f1, f2, f3, f4, f6, f0_2, f0_25; fin_norm;
  repeat ((fin_step || (progress cbn [isnan ftan fcos farctan])
           || rewrite tan_0 || rewrite atan_0 || rewrite cos_0); fin_norm).

(** ** Lists and panels *)

Lemma removelast_map {A B : Type} (f : A -> B) (l : list A) :
  removelast (map f l) = map f (removelast l).
Proof.
  induction l as [|a [|b l] IH]; try reflexivity.
  cbn [map removelast] in *. now rewrite IH.
Qed.

Lemma panels_cons2 {A : Type} (a b : A) (l : list A) :
  panels (a :: b :: l) = (a, b) :: panels (b :: l).
Proof. reflexivity. Qed.

Lemma length_removelast {A : Type} (l : list A) :
  length (removelast l) = pred (length l).
Proof.
  induction l as [|a [|b l] IH]; try reflexivity.
  cbn [removelast length] in *. now rewrite IH.
Qed.

Lemma length_panels {A : Type} (l : list A) :
  length (panels l) = pred (length l).
Proof.
  unfold panels. rewrite length_combine, length_removelast, length_tl. lia.
Qed.

Lemma map_fst_panels {A : Type} (l : list A) :
  map fst (panels l) = removelast l.
Proof.
  induction l as [|a [|b l] IH]; try reflexivity.
  rewrite panels_cons2. cbn [map fst removelast] in *. now rewrite IH.
Qed.

Lemma map_snd_panels {A : Type} (l : list A) :
  map snd (panels l) = tl l.
Proof.
  induction l as [|a [|b l] IH]; try reflexivity.
  rewrite panels_cons2. cbn [map snd tl] in *. now rewrite IH.
Qed.

Lemma removelast_map_panels {A B : Type} (g : A -> B) (l : list A) :
  removelast (map g l) = map (fun p => g (fst p)) (panels l).
Proof. now rewrite removelast_map, <- map_fst_panels, map_map. Qed.

Lemma tl_map_panels {A B : Type} (g : A -> B) (l : list A) :
  tl (map g l) = map (fun p => g (snd p)) (panels l).
Proof. now rewrite tl_map, <- map_snd_panels, map_map. Qed.

Lemma map2_map_map {A B C D : Type} (f : B -> C -> D) (g : A -> B)
  (h : A -> C) (l : list A) :
  map2 f (map g l) (map h l) = map (fun x => f (g x) (h x)) l.
Proof. induction l as [|a l IH]; simpl; [reflexivity|now rewrite IH]. Qed.

Lemma combine_map_map {A B C : Type} (g : A -> B) (h : A -> C) (l : list A) :
  combine (map g l) (map h l) = map (fun x => (g x, h x)) l.
Proof. induction l as [|a l IH]; simpl; [reflexivity|now rewrite IH]. Qed.

Lemma length_map2 {A B C : Type} (f : A -> B -> C) xs ys :
  length (map2 f xs ys) = Nat.min (length xs) (length ys).
Proof.
  revert ys; induction xs as [|x xs IH]; intros [|y ys]; simpl; auto.
Qed.

(** Brings a per-panel array to the form [map h (panels segs)]. *)
(** The two slices paired in every per-panel array have the same length. *)
Lemma panel_slices_length {A : Type} (l : list A) :
  length (tl l) = length (removelast l).
Proof. rewrite length_tl, length_removelast. lia. Qed.

Ltac panelize :=
  unfold aadd, asub, amul, adiv, smul, amuls, adivs, sadd, apow, aneg;
  repeat rewrite map_map;
  repeat rewrite removelast_map_panels;
  repeat rewrite tl_map_panels;
  repeat (rewrite map2_map_map || rewrite map_map || rewrite combine_map_map).

(** ** The per-panel arrays in panel form *)

Lemma locals_As w :
  l_As (locals w)
  = map (panel_area (chords_root w) (l_semispan (locals w)))
        (panels (Segments w)).
Proof.
  unfold locals. cbn [l_As l_semispan]. panelize. reflexivity.
Qed.

Lemma locals_integral w :
  l_integral (locals w)
  = map (panel_integral (chords_root w)) (panels (Segments w)).
Proof.
  unfold locals. cbn [l_integral]. panelize. reflexivity.
Qed.

(** ** The function returns on two segments or more *)

Lemma length_cumsum_from acc xs : length (cumsum_from acc xs) = length xs.
Proof.
  revert acc; induction xs as [|x xs IH]; intros acc; simpl; [reflexivity|].
  now rewrite IH.
Qed.

Lemma length_np_cumsum xs : length (np_cumsum xs) = length xs.
Proof. destruct xs; simpl; [reflexivity|now rewrite length_cumsum_from]. Qed.

Lemma getitem_ok {A : Type} (xs : list A) (i : nat) :
  (i < length xs)%nat -> exists x, getitem xs i = OK x.
Proof.
  intros H. unfold getitem.
  destruct (nth_error xs i) as [x|] eqn:E; [now exists x|].
  apply nth_error_None in E. lia.
Qed.

Lemma mapM_ok {A B : Type} (f : A -> result B) (xs : list A) :
  (forall x, In x xs -> exists y, f x = OK y) ->
  exists ys, mapM f xs = OK ys /\ length ys = length xs.
Proof.
  induction xs as [|x xs IH]; intros H; simpl.
  - now exists [].
  - destruct (H x (or_introl eq_refl)) as [y ->].
    destruct IH as [ys [-> Hlen]]; [intros; apply H; now right|].
    exists (y :: ys). simpl. now rewrite Hlen.
Qed.

Ltac panel_length :=
  panelize;
  repeat (rewrite length_map || rewrite length_panels || rewrite length_np_cumsum
          || rewrite length_map2 || rewrite length_removelast
          || (progress cbn [length]));
  try lia.

Lemma centroids_ok w :
  exists Cxys,
    centroids w (locals w) = OK Cxys
    /\ length Cxys = pred (length (Segments w)).
Proof.
  set (n := length (Segments w)).
  assert (Hlen : length (l_lengths_dim (locals w)) = pred n).
  { unfold locals; cbn [l_lengths_dim]. subst n. panel_length. }
  unfold centroids. rewrite Hlen.
  destruct (mapM_ok
    (fun i =>
          le <- getitem (l_le_sweeps (locals w)) i ;;
          len <- getitem (l_lengths_dim (locals w)) i ;;
          dx <- getitem (l_dxs (locals w)) i ;;
          dy <- getitem (l_dys (locals w)) i ;;
          dz <- getitem (l_dzs (locals w)) i ;;
          tp <- getitem (l_tapers (locals w)) i ;;
          Ai <- getitem (l_As (locals w)) i ;;
          pm <- getitem (l_panel_mac (locals w)) i ;;
          dh <- getitem (map Segment.dihedral_outboard (Segments w)) i ;;
          OK (segment_centroid le (len * one_plus (symmetric w))%float
                dx dy dz tp Ai pm dh)) (seq 0 (pred n))) as [ys [E L]].
  - intros i Hi. apply in_seq in Hi.
    destruct (getitem_ok (l_le_sweeps (locals w)) i) as [x1 ->].
    { unfold locals; cbn [l_le_sweeps]. subst n. panel_length. }
    destruct (getitem_ok (l_lengths_dim (locals w)) i) as [x2 ->]; [lia|].
    destruct (getitem_ok (l_dxs (locals w)) i) as [x3 ->].
    { unfold locals; cbn [l_dxs]. subst n. panel_length. }
    destruct (getitem_ok (l_dys (locals w)) i) as [x4 ->].
    { unfold locals; cbn [l_dys]. subst n. panel_length. }
    destruct (getitem_ok (l_dzs (locals w)) i) as [x5 ->].
    { unfold locals; cbn [l_dzs]. unfold drop_last2. subst n. panel_length. }
    destruct (getitem_ok (l_tapers (locals w)) i) as [x6 ->].
    { unfold locals; cbn [l_tapers]. subst n. panel_length. }
    destruct (getitem_ok (l_As (locals w)) i) as [x7 ->].
    { unfold locals; cbn [l_As]. subst n. panel_length. }
    destruct (getitem_ok (l_panel_mac (locals w)) i) as [x8 ->].
    { unfold locals; cbn [l_panel_mac]. subst n. panel_length. }
    destruct (getitem_ok (map Segment.dihedral_outboard (Segments w)) i) as [x9 ->].
    { rewrite length_map. subst n. lia. }
    cbn [bind]. eauto.
  - exists ys. split; [exact E|]. rewrite L, length_seq. reflexivity.
Qed.

Lemma map2_map_l {A A' B C : Type} (f : A' -> B -> C) (g : A -> A') xs ys :
  map2 f (map g xs) ys = map2 (fun x y => f (g x) y) xs ys.
Proof.
  revert ys; induction xs as [|x xs IH]; intros [|y ys]; simpl; auto.
  now rewrite IH.
Qed.

Lemma dot_transpose_weighted Cxys As :
  Cxys <> [] ->
  dot_transpose Cxys As
  = Vec3 (weighted cx_of Cxys As) (weighted cy_of Cxys As)
         (weighted cz_of Cxys As).
Proof.
  intros H. destruct Cxys as [|c Cxys]; [contradiction|].
  unfold dot_transpose, weighted, amul.
  now rewrite !map2_map_l.
Qed.

Lemma getlast_ok {A : Type} (xs : list A) :
  xs <> [] -> exists x, getlast xs = OK x.
Proof. destruct xs as [|x t]; [contradiction|]. intros _. simpl. eauto. Qed.

Lemma planform_ok w :
  (2 <= length (Segments w))%nat ->
  exists Cxys last_chord,
    centroids w (locals w) = OK Cxys
    /\ length Cxys = pred (length (Segments w))
    /\ getlast (map Segment.root_chord_percent (Segments w)) = OK last_chord
    /\ wing_segmented_planform w
       = OK (pack w (locals w)
               (normalised_center (symmetric w) Cxys (l_As (locals w))
                  (l_ref_area (locals w) / one_plus (symmetric w)))
               (ftan (l_le_sweep_total (locals w)) * l_semispan (locals w)
                + last_chord * chords_root w)).
Proof.
  intros HN.
  destruct (centroids_ok w) as [Cxys [HC HL]].
  destruct (getlast_ok (map Segment.root_chord_percent (Segments w)))
    as [lc Hlc].
  { destruct (Segments w); simpl in *; [lia|discriminate]. }
  exists Cxys, lc. repeat split; try assumption.
  unfold wing_segmented_planform. rewrite HC. cbn [bind].
  rewrite dot_transpose_weighted
    by (destruct Cxys; simpl in *; [lia|discriminate]).
  cbn [nd_divs]. destruct (symmetric w); cbn [nd_set1 bind];
    rewrite Hlc; reflexivity.
Qed.

Lemma locals_same_inputs w1 w2 : same_inputs w1 w2 -> locals w1 = locals w2.
Proof.
  destruct w1 as [a1 b1 c1 d1 ? ? ? ? ? ? ? ? ? ? ? ? ?].
  destruct w2 as [a2 b2 c2 d2 ? ? ? ? ? ? ? ? ? ? ? ? ?].
  unfold same_inputs. cbn [spans_projected chords_root symmetric Segments].
  intros [-> [-> [-> ->]]]. reflexivity.
Qed.

Lemma planform_same_inputs w1 w2 :
  same_inputs w1 w2 -> wing_segmented_planform w1 = wing_segmented_planform w2.
Proof.
  destruct w1 as [a1 b1 c1 d1 ? ? ? ? ? ? ? ? ? ? ? ? ?].
  destruct w2 as [a2 b2 c2 d2 ? ? ? ? ? ? ? ? ? ? ? ? ?].
  unfold same_inputs. cbn [spans_projected chords_root symmetric Segments].
  intros [-> [-> [-> ->]]]. reflexivity.
Qed.

Lemma planform_inv w w' :
  wing_segmented_planform w = OK w' ->
  exists ac tl, w' = pack w (locals w) ac tl.
Proof.
  unfold wing_segmented_planform.
  destruct (centroids w (locals w)) as [Cxys|e]; cbn [bind]; [|discriminate].
  match goal with |- context [bind ?m _] => destruct m as [ac|e] end;
    cbn [bind]; [|discriminate].
  destruct (getlast _) as [lc|e]; cbn [bind]; [|discriminate].
  intros H. injection H as <-. eauto.
Qed.

Lemma pack_same_inputs w L ac tl : same_inputs w (pack w L ac tl).
Proof. repeat split. Qed.

(** C8.  The function reads only the four inputs and leaves them as they
    are: the wing it returns has the inputs of the wing it was given,
    calling it again on that wing returns the very same wing, and so does
    calling it on any wing with the same inputs. *)
Theorem planform_pure_and_idempotent (w w' : Wing) :
  wing_segmented_planform w = OK w' ->
  same_inputs w w'
  /\ wing_segmented_planform w' = OK w'
  /\ (forall v, same_inputs w v -> wing_segmented_planform v = OK w').
Proof.
  intros H.
  destruct (planform_inv _ _ H) as [ac [tl ->]].
  assert (S := pack_same_inputs w (locals w) ac tl).
  split; [exact S|]. split.
  - rewrite <- (planform_same_inputs _ _ S). exact H.
  - intros v Hv. rewrite <- (planform_same_inputs _ _ Hv). exact H.
Qed.

Lemma planform_pure_and_idempotent_witness :
  same_inputs symmetric_swept_wing (after_call symmetric_swept_wing)
  /\ wing_segmented_planform (after_call symmetric_swept_wing)
     = OK (after_call symmetric_swept_wing)
  /\ (forall v, same_inputs symmetric_swept_wing v ->
        wing_segmented_planform v = OK (after_call symmetric_swept_wing)).
Proof.
  apply (planform_pure_and_idempotent symmetric_swept_wing).
  unfold after_call.
  destruct (planform_ok symmetric_swept_wing) as [Cxys [lc [_ [_ [_ ->]]]]];
    [simpl; lia|reflexivity].
Defined.

(** C5.  On a symmetric wing, whatever the sweeps and dihedrals: whenever
    the function returns, the second component of the aerodynamic center it
    packs is exactly zero; and it does return on two segments or more. *)
Theorem symmetric_center_y_zero (w : Wing) :
  symmetric w = true ->
  (forall w', wing_segmented_planform w = OK w' ->
     exists x z, aerodynamic_center w' = Vec3 x (Fin 0) z)
  /\ ((2 <= length (Segments w))%nat ->
      exists w', wing_segmented_planform w = OK w').
Proof.
  intros Hs. split.
  - unfold wing_segmented_planform. rewrite Hs. intros w'.
    destruct (centroids w (locals w)) as [Cxys|e]; cbn [bind]; [|discriminate].
    destruct (dot_transpose Cxys (l_As (locals w))) as [s|x y z];
      cbn [nd_divs nd_set1 bind]; [discriminate|].
    destruct (getlast _) as [lc|e]; cbn [bind]; [|discriminate].
    intros H. injection H as <-. cbn [pack aerodynamic_center]. eauto.
  - intros HN.
    destruct (planform_ok w HN) as [Cxys [lc [_ [_ [_ E]]]]]. eauto.
Qed.

Lemma symmetric_center_y_zero_witness :
  (forall w', wing_segmented_planform symmetric_swept_wing = OK w' ->
     exists x z, aerodynamic_center w' = Vec3 x (Fin 0) z)
  /\ ((2 <= length (Segments symmetric_swept_wing))%nat ->
      exists w', wing_segmented_planform symmetric_swept_wing = OK w').
Proof.
  apply (symmetric_center_y_zero symmetric_swept_wing). reflexivity.
Defined.

(** C3, amended.  On two segments or more the aerodynamic center is the
    sum over the panels of centroid times area divided by
    [reference_area / (1 + is_symmetric)]: half the reference area on a
    symmetric wing, the whole reference area otherwise; on a symmetric wing
    the spanwise component is then replaced by zero. *)
Theorem center_normalised_by_reference_over_one_plus_sym (w : Wing) :
  (2 <= length (Segments w))%nat ->
  exists w' Cxys,
    wing_segmented_planform w = OK w'
    /\ centroids w (locals w) = OK Cxys
    /\ length Cxys = pred (length (Segments w))
    /\ aerodynamic_center w'
       = normalised_center (symmetric w) Cxys (l_As (locals w))
           (areas_reference w' / one_plus (symmetric w)).
Proof.
  intros HN.
  destruct (planform_ok w HN) as [Cxys [lc [HC [HL [_ E]]]]].
  eexists _, Cxys. split; [exact E|]. split; [exact HC|]. split; [exact HL|].
  reflexivity.
Qed.

Lemma center_normalised_by_reference_over_one_plus_sym_witness :
  exists w' Cxys,
    wing_segmented_planform symmetric_swept_wing = OK w'
    /\ centroids symmetric_swept_wing (locals symmetric_swept_wing) = OK Cxys
    /\ length Cxys = pred (length (Segments symmetric_swept_wing))
    /\ aerodynamic_center w'
       = normalised_center (symmetric symmetric_swept_wing) Cxys
           (l_As (locals symmetric_swept_wing))
           (areas_reference w' / one_plus (symmetric symmetric_swept_wing)).
Proof.
  apply (center_normalised_by_reference_over_one_plus_sym symmetric_swept_wing).
  simpl. lia.
Defined.

Lemma fmul_zero_nan x : isfinite x = false -> isnan (fmul x (Fin 0)) = true.
Proof.
  destruct x as [a| | |]; simpl; intros H; try discriminate; try reflexivity;
    unfold fmul, inf_times; destruct (Req_dec_T 0 0) as [_|N]; try reflexivity;
    now contradiction N.
Qed.

(** C9.  With fewer than two segments no check rejects the wing and
    [ValueError] is never raised: the computation goes on with empty panel
    arrays, a reference area of 0 and an aspect ratio that is not finite
    (plus infinity for a finite nonzero span).
    With one segment and [symmetric = False] the function returns a wing
    with these values and NaN for the mean aerodynamic chord, the thickness
    ratio and the aerodynamic center (a scalar).  Otherwise it stops on an
    incidental exception: [TypeError] from the item assignment into that
    scalar on a symmetric wing, [IndexError] from [chords[-1]] on a wing
    without segments. *)
Theorem fewer_than_two_segments (w : Wing) :
  (length (Segments w) < 2)%nat ->
  l_As (locals w) = []
  /\ l_ref_area (locals w) = Fin 0
  /\ isfinite (l_AR (locals w)) = false
  /\ (forall b, spans_projected w = Fin b -> b <> 0 ->
      l_AR (locals w) = PInf)
  /\ match wing_segmented_planform w with
     | OK w' =>
         length (Segments w) = 1%nat
         /\ symmetric w = false
         /\ areas_reference w' = Fin 0
         /\ isfinite (aspect_ratio w') = false
         /\ isnan (chords_mean_aerodynamic w') = true
         /\ isnan (thickness_to_chord w') = true
         /\ exists x, aerodynamic_center w' = Scalar x /\ isnan x = true
     | Raise e =>
         (e = TypeError /\ symmetric w = true)
         \/ (e = IndexError /\ symmetric w = false /\ Segments w = [])
     end.
Proof.
  intros HN. destruct w as [span RC sym segs ? ? ? ? ? ? ? ? ? ? ? ? ?].
  cbn [Segments] in HN.
  assert (Z : (f0 * f2)%float = Fin 0) by (cbv [f0 f2 fmul]; f_equal; lra).
  assert (P : forall b, span = Fin b -> b <> 0 ->
                (fpow span 2 / Fin 0)%float = PInf).
  { intros b -> Hb. rewrite fpow_fin. apply fdiv_pos_0; [|reflexivity].
    simpl. nra. }
  destruct segs as [|g [|g' segs]]; [| |simpl in HN; lia].
  - cbn. rewrite !Z. repeat split; try apply fdiv_zero_not_finite;
      [exact P|].
    destruct sym; [left|right]; auto.
  - split; [reflexivity|]. split; [cbn; exact Z|].
    split; [cbn; rewrite Z; apply fdiv_zero_not_finite|].
    split; [cbn; rewrite Z; exact P|].
    destruct sym.
    + cbn. left; auto.
    + unfold wing_segmented_planform. cbn.
      rewrite !Z. repeat split; try reflexivity.
      * apply fdiv_zero_not_finite.
      * apply fmul_zero_nan, fdiv_zero_not_finite.
      * unfold f0, f2. rewrite (fdiv_fin 0 2) by lra.
        now rewrite fdiv_0_0 by lra.
      * eexists. split; [reflexivity|].
        unfold f0, f1. rewrite (fdiv_fin 0 1) by lra.
        now rewrite fdiv_0_0 by lra.
Qed.

Lemma fewer_than_two_segments_witness :
  l_As (locals one_segment_wing) = []
  /\ l_ref_area (locals one_segment_wing) = Fin 0
  /\ isfinite (l_AR (locals one_segment_wing)) = false
  /\ (forall b, spans_projected one_segment_wing = Fin b -> b <> 0 ->
      l_AR (locals one_segment_wing) = PInf)
  /\ match wing_segmented_planform one_segment_wing with
     | OK w' =>
         length (Segments one_segment_wing) = 1%nat
         /\ symmetric one_segment_wing = false
         /\ areas_reference w' = Fin 0
         /\ isfinite (aspect_ratio w') = false
         /\ isnan (chords_mean_aerodynamic w') = true
         /\ isnan (thickness_to_chord w') = true
         /\ exists x, aerodynamic_center w' = Scalar x /\ isnan x = true
     | Raise e =>
         (e = TypeError /\ symmetric one_segment_wing = true)
         \/ (e = IndexError /\ symmetric one_segment_wing = false
             /\ Segments one_segment_wing = [])
     end.
Proof.
  apply (fewer_than_two_segments one_segment_wing). simpl. lia.
Defined.

(** ** Finite input *)

Lemma finite_segment_fields g :
  finite_segment g = true ->
  Segment.percent_span_location g = Fin (span_loc g)
  /\ Segment.root_chord_percent g = Fin (chord g)
  /\ Segment.thickness_to_chord g = Fin (thick g).
Proof.
  unfold finite_segment. rewrite !andb_true_iff.
  intros [[[[[Hs _] Hc] _] Ht] _].
  repeat split; now apply isfinite_val.
Qed.

Lemma Forall_panels {A : Type} (P : A -> Prop) (l : list A) :
  Forall P l -> Forall (fun p => P (fst p) /\ P (snd p)) (panels l).
Proof.
  induction l as [|a [|b l] IH]; intros H; try constructor.
  - inversion H as [|? ? Ha Hl]; subst. inversion Hl; subst. now split.
  - apply IH. now inversion H.
Qed.

Lemma np_sum_fin {A : Type} (f : A -> float) (g : A -> R) (l : list A) :
  Forall (fun p => f p = Fin (g p)) l ->
  np_sum (map f l) = Fin (Rsum (map g l)).
Proof.
  induction 1 as [|p l Hp _ IH]; [reflexivity|].
  cbn [map np_sum fold_right Rsum]. fold (np_sum (map f l)).
  fold (Rsum (map g l)). now rewrite Hp, IH.
Qed.

Lemma one_plus_fin sym : one_plus sym = Fin (one_plus_R sym).
Proof. now destruct sym. Qed.

Lemma one_plus_R_pos sym : 0 < one_plus_R sym.
Proof. destruct sym; simpl; lra. Qed.

Lemma panel_area_fin rc h p :
  finite_segment (fst p) = true -> finite_segment (snd p) = true ->
  panel_area (Fin rc) (Fin h) p = Fin (panel_area_R rc h p).
Proof.
  intros Ha Hb.
  destruct (finite_segment_fields _ Ha) as [Sa [Ca _]].
  destruct (finite_segment_fields _ Hb) as [Sb [Cb _]].
  unfold panel_area, panel_length_dim, panel_length_ndim, panel_area_R.
  rewrite Sa, Sb, Ca, Cb. unfold f2. fin_eval. reflexivity.
Qed.

Section ValidWing.

Variable w : Wing.
Hypothesis V : valid_wing w.

Let rc := val (chords_root w).
Let h := val (spans_projected w) / one_plus_R (symmetric w).

Lemma valid_root_fin : chords_root w = Fin rc.
Proof. apply isfinite_val, V. Qed.

Lemma valid_semispan : l_semispan (locals w) = Fin h.
Proof.
  unfold locals; cbn [l_semispan].
  rewrite (isfinite_val _ (valid_span w V)), one_plus_fin.
  apply fdiv_fin. pose proof (one_plus_R_pos (symmetric w)). lra.
Qed.

Lemma valid_semispan_pos : 0 < h.
Proof.
  apply Rdiv_pos_pos; [apply V|apply one_plus_R_pos].
Qed.

Lemma valid_panels_finite :
  Forall (fun p => finite_segment (fst p) = true
                   /\ finite_segment (snd p) = true)
         (panels (Segments w)).
Proof.
  apply (Forall_panels (fun g => finite_segment g = true)).
  apply Forall_forall.
  apply forallb_forall. apply V.
Qed.

Lemma valid_sum_As :
  np_sum (l_As (locals w))
  = Fin (Rsum (map (panel_area_R rc h) (panels (Segments w)))).
Proof.
  rewrite locals_As, valid_root_fin, valid_semispan.
  apply np_sum_fin.
  eapply Forall_impl; [|exact valid_panels_finite].
  intros p [Ha Hb]. now apply panel_area_fin.
Qed.

Lemma valid_ref_area :
  l_ref_area (locals w)
  = Fin (2 * Rsum (map (panel_area_R rc h) (panels (Segments w)))).
Proof.
  change (l_ref_area (locals w)) with (np_sum (l_As (locals w)) * f2)%float.
  rewrite valid_sum_As. unfold f2. rewrite fmul_fin. f_equal. lra.
Qed.

End ValidWing.

Lemma map_panels_seq {A B : Type} (f : A * A -> B) (d : A) (l : list A) :
  map f (panels l)
  = map (fun i => f (nth i l d, nth (S i) l d)) (seq 0 (pred (length l))).
Proof.
  induction l as [|a [|b l] IH]; try reflexivity.
  rewrite panels_cons2. cbn [length pred] in *.
  cbn [seq map nth]. f_equal.
  rewrite IH, <- seq_shift, map_map. reflexivity.
Qed.

(** C7.  On a valid wing the function returns and the reference area is
    exactly twice the sum over the panels [i = 0 .. N-2] of the trapezoid
    area [area[i]], whatever the symmetry flag (which enters only through
    the semispan). *)
Theorem reference_area_twice_panel_areas (w : Wing) :
  valid_wing w ->
  exists w',
    wing_segmented_planform w = OK w'
    /\ areas_reference w'
       = Fin (2 * Rsum (map (area (val (chords_root w))
                               (val (spans_projected w)
                                / one_plus_R (symmetric w))
                               (Segments w))
                          (seq 0 (length (Segments w) - 1)))).
Proof.
  intros V.
  destruct (planform_ok w (valid_count w V)) as [Cxys [lc [_ [_ [_ E]]]]].
  eexists. split; [exact E|].
  cbn [pack areas_reference]. rewrite (valid_ref_area w V).
  rewrite (map_panels_seq _ no_segment), Nat.sub_1_r. reflexivity.
Qed.

(** ** Positive areas *)

Lemma Rsum_pos {A : Type} (g : A -> R) (l : list A) :
  l <> [] -> Forall (fun p => 0 < g p) l -> 0 < Rsum (map g l).
Proof.
  intros Hne H. induction H as [|p l Hp Hl IH]; [contradiction|].
  cbn [map Rsum fold_right]. fold (Rsum (map g l)).
  destruct l as [|q l]; [simpl; lra|].
  assert (0 < Rsum (map g (q :: l))) by (apply IH; discriminate). lra.
Qed.

Lemma panel_area_R_pos rc h p :
  0 < rc -> 0 < h -> 0 < chord (fst p) -> 0 < chord (snd p) ->
  span_loc (fst p) < span_loc (snd p) ->
  0 < panel_area_R rc h p.
Proof.
  intros Hrc Hh Ha Hb Hs. unfold panel_area_R. cbv zeta.
  set (len := (span_loc (snd p) - span_loc (fst p)) * h).
  assert (Hlen : 0 < len) by (apply Rmult_lt_0_compat; lra).
  replace (rc * (len * chord (fst p) - (chord (fst p) - chord (snd p)) * len / 2))
    with (rc * len * ((chord (fst p) + chord (snd p)) / 2)) by field.
  apply Rmult_lt_0_compat; [apply Rmult_lt_0_compat; assumption|lra].
Qed.

Lemma panels_nonempty {A : Type} (l : list A) :
  (2 <= length l)%nat -> panels l <> [].
Proof.
  destruct l as [|a [|b l]]; simpl; try lia. intros _. discriminate.
Qed.

Lemma valid_sum_areas_pos w :
  valid_wing w ->
  0 < Rsum (map (panel_area_R (val (chords_root w))
                   (val (spans_projected w) / one_plus_R (symmetric w)))
                (panels (Segments w))).
Proof.
  intros V. apply Rsum_pos; [apply panels_nonempty, V|].
  pose proof (Forall_panels (fun g => 0 < chord g) _ (valid_chords w V)) as HC.
  pose proof (valid_increasing w V) as HS.
  rewrite Forall_forall in *. intros p Hp.
  destruct (HC p Hp) as [Ha Hb].
  apply panel_area_R_pos; auto; [apply V|apply valid_semispan_pos, V].
Qed.

(** ** Wetted area and thickness *)

Lemma locals_wet_area w :
  l_wet_area (locals w)
  = np_sum (map (panel_wet (chords_root w) (l_semispan (locals w)))
                (panels (Segments w))).
Proof. unfold locals. cbn [l_wet_area l_semispan]. panelize. reflexivity. Qed.

Lemma locals_t_c w :
  l_t_c (locals w)
  = (np_sum (map (fun p => panel_area (chords_root w) (l_semispan (locals w)) p
                           * Segment.thickness_to_chord (fst p))
                 (panels (Segments w)))
     / (l_ref_area (locals w) / f2))%float.
Proof. unfold locals. cbn [l_t_c l_semispan l_ref_area]. panelize. reflexivity. Qed.

Lemma Rsum_wet {A : Type} (a t : A -> R) (l : list A) :
  Rsum (map (fun p => 2 * (1 + 2 / 10 * t p) * a p) l)
  = 2 * Rsum (map a l) + 4 / 10 * Rsum (map (fun p => a p * t p) l).
Proof.
  induction l as [|p l IH]; cbn [map Rsum fold_right]; [lra|].
  fold (Rsum (map (fun p => 2 * (1 + 2 / 10 * t p) * a p) l)).
  fold (Rsum (map a l)). fold (Rsum (map (fun p => a p * t p) l)).
  rewrite IH. field.
Qed.

(** C10, amended.  On a valid wing the three outputs are the values of
    lines 93 to 97 and 126: the wetted area is the sum of
    [2*(1+0.2*t_c[i])*area[i]], the reference area is [sum(area)*2] and the
    thickness ratio is [sum(area[i]*t_c[i]) / (reference_area/2)]; the
    wetted area is finite.  Read over the real numbers, the three
    expressions satisfy [wetted = reference * (1 + 0.2 * thickness)].  The
    outputs themselves are rounded at every operation and need not satisfy
    it. *)
Theorem wetted_area_reference_and_thickness (w : Wing) :
  valid_wing w ->
  let RC := chords_root w in
  let semispan := (spans_projected w / one_plus (symmetric w))%float in
  let rc := val (chords_root w) in
  let h := val (spans_projected w) / one_plus_R (symmetric w) in
  exists w',
    wing_segmented_planform w = OK w'
    /\ areas_wetted w'
       = np_sum (map (panel_wet RC semispan) (panels (Segments w)))
    /\ areas_reference w'
       = (np_sum (map (panel_area RC semispan) (panels (Segments w)))
          * f2)%float
    /\ thickness_to_chord w'
       = (np_sum (map (fun p => panel_area RC semispan p
                                * Segment.thickness_to_chord (fst p))
                      (panels (Segments w)))
          / (areas_reference w' / f2))%float
    /\ isfinite (areas_wetted w') = true
    /\ Rsum (map (panel_wet_R rc h) (panels (Segments w)))
       = Rsum (map (panel_area_R rc h) (panels (Segments w))) * 2
         * (1 + 2 / 10
                * (Rsum (map (fun p => panel_area_R rc h p * thick (fst p))
                             (panels (Segments w)))
                   / (Rsum (map (panel_area_R rc h) (panels (Segments w)))
                      * 2 / 2))).
Proof.
  intros V RC semispan rc h.
  destruct (planform_ok w (valid_count w V)) as [Cxys [lc [_ [_ [_ E]]]]].
  eexists. split; [exact E|].
  cbn [pack areas_reference areas_wetted thickness_to_chord].
  pose proof (valid_sum_areas_pos w V) as Hpos.
  pose proof (valid_panels_finite w V) as HF.
  fold rc h in Hpos.
  split; [apply locals_wet_area|].
  split.
  { change (l_ref_area (locals w)) with (np_sum (l_As (locals w)) * f2)%float.
    now rewrite locals_As. }
  split; [apply locals_t_c|].
  split.
  - rewrite locals_wet_area, (valid_root_fin w V), (valid_semispan w V).
    rewrite (np_sum_fin _ (panel_wet_R rc h)); [reflexivity|].
    eapply Forall_impl; [|exact HF].
    intros p [Ha Hb]. unfold panel_wet, panel_wet_R.
    rewrite (panel_area_fin _ _ _ Ha Hb).
    destruct (finite_segment_fields _ Ha) as [_ [_ ->]].
    unfold f1, f2, f0_2. fin_eval. reflexivity.
  - unfold panel_wet_R. rewrite Rsum_wet. field. lra.
Qed.

(** ** The mean aerodynamic chord of a valid wing *)

Lemma panel_integral_fin rc p :
  finite_segment (fst p) = true -> finite_segment (snd p) = true ->
  span_loc (fst p) < span_loc (snd p) ->
  panel_integral (Fin rc) p = Fin (panel_integral_R rc p).
Proof.
  intros Ha Hb Hs.
  destruct (finite_segment_fields _ Ha) as [Sa [Ca _]].
  destruct (finite_segment_fields _ Hb) as [Sb [Cb _]].
  unfold panel_integral, panel_integral0, panel_B, panel_length_ndim,
    panel_integral_R.
  rewrite Sa, Sb, Ca, Cb. cbv zeta. rewrite !fmul_fin.
  set (sa := span_loc (fst p)) in *. set (sb := span_loc (snd p)) in *.
  set (A := rc * chord (fst p)). set (A' := rc * chord (snd p)).
  clearbody A A' sa sb.
  unfold f3. rewrite fsub_fin, fsub_fin, fneg_fin, (fsub_fin sa sa).
  rewrite (fdiv_fin (A - A')) by lra.
  destruct (Req_dec_T A A') as [E|NE].
  - assert (HB : (A - A') / - (sb - sa) = 0) by (rewrite E; field; lra).
    rewrite HB. fin_eval. f_equal. rewrite E. field.
  - assert (HB : (A - A') / - (sb - sa) <> 0).
    { unfold Rdiv. apply Rmult_integral_contrapositive_currified;
        [lra|apply Rinv_neq_0_compat; lra]. }
    set (B := (A - A') / - (sb - sa)) in *.
    fin_eval. cbn [isnan]. fin_eval. f_equal.
    subst B. field. lra.
Qed.


Lemma valid_panels_increasing_finite w :
  valid_wing w ->
  Forall (fun p => finite_segment (fst p) = true
                   /\ finite_segment (snd p) = true
                   /\ span_loc (fst p) < span_loc (snd p))
         (panels (Segments w)).
Proof.
  intros V. pose proof (valid_panels_finite w V) as HF.
  pose proof (valid_increasing w V) as HS.
  rewrite Forall_forall in *. intros p Hp.
  destruct (HF p Hp). auto.
Qed.

(** On a valid wing the mean aerodynamic chord is finite: every panel
    integral is, the untapered ones through the NaN branch. *)
Lemma valid_MAC w :
  valid_wing w ->
  l_MAC (locals w)
  = Fin (val (spans_projected w)
         / (2 * Rsum (map (panel_area_R (val (chords_root w))
                             (val (spans_projected w)
                              / one_plus_R (symmetric w)))
                          (panels (Segments w))))
         * Rsum (map (panel_integral_R (val (chords_root w)))
                     (panels (Segments w)))).
Proof.
  intros V.
  pose proof (valid_sum_areas_pos w V) as Hpos.
  pose proof (one_plus_R_pos (symmetric w)) as Hop.
  change (l_MAC (locals w))
    with (l_semispan (locals w) * one_plus (symmetric w)
          / l_ref_area (locals w) * np_sum (l_integral (locals w)))%float.
  rewrite locals_integral, (valid_root_fin w V), one_plus_fin. cbn [val].
  rewrite (valid_semispan w V), (valid_ref_area w V).
  rewrite (np_sum_fin _ (panel_integral_R (val (chords_root w)))).
  - fin_eval. f_equal. field. lra.
  - eapply Forall_impl; [|exact (valid_panels_increasing_finite w V)].
    intros p [Ha [Hb Hs]]. now apply panel_integral_fin.
Qed.

Lemma Rsum_scale {A : Type} (k : R) (f g : A -> R) (l : list A) :
  Forall (fun p => g p = k * f p) l ->
  Rsum (map g l) = k * Rsum (map f l).
Proof.
  induction 1 as [|p l Hp _ IH]; cbn [map Rsum fold_right]; [lra|].
  fold (Rsum (map g l)). fold (Rsum (map f l)). rewrite Hp, IH. lra.
Qed.


(** The mean aerodynamic chord does not depend on the projected span: it
    is [(1 + sym) / 2] times a ratio fixed by the root chord and the
    segments. *)
Lemma valid_MAC_span_free w :
  valid_wing w ->
  l_MAC (locals w)
  = Fin (one_plus_R (symmetric w) / 2
         * (Rsum (map (panel_integral_R (val (chords_root w)))
                      (panels (Segments w)))
            / Rsum (map (panel_area_R (val (chords_root w)) 1)
                        (panels (Segments w))))).
Proof.
  intros V. rewrite (valid_MAC w V).
  pose proof (valid_sum_areas_pos w V) as Hpos.
  pose proof (one_plus_R_pos (symmetric w)) as Hop.
  pose proof (valid_span_pos w V) as Hb.
  set (rc := val (chords_root w)) in *.
  set (b := val (spans_projected w)) in *.
  assert (HA : Rsum (map (panel_area_R rc (b / one_plus_R (symmetric w)))
                         (panels (Segments w)))
               = b / one_plus_R (symmetric w)
                 * Rsum (map (panel_area_R rc 1) (panels (Segments w)))).
  { apply Rsum_scale. apply Forall_forall. intros p _.
    unfold panel_area_R. field. lra. }
  rewrite HA in Hpos |- *.
  assert (Hh : 0 < b / one_plus_R (symmetric w))
    by (apply Rdiv_pos_pos; assumption).
  assert (H1 : 0 < Rsum (map (panel_area_R rc 1) (panels (Segments w)))).
  { set (S1 := Rsum _) in *. clearbody S1.
    destruct (Rlt_le_dec 0 S1) as [K|K]; [exact K|exfalso; nra]. }
  f_equal. field. repeat split; lra.
Qed.

(** Two valid wings with the same root chord and the same segments, one
    with [symmetric = True] and one with [symmetric = False], whatever
    their projected spans: the second gets half the mean aerodynamic chord
    of the first. *)
Lemma mac_without_symmetry_is_half w1 w2 :
  valid_wing w1 -> valid_wing w2 ->
  symmetric w1 = true -> symmetric w2 = false ->
  chords_root w2 = chords_root w1 ->
  Segments w2 = Segments w1 ->
  exists m,
    l_MAC (locals w1) = Fin m /\ l_MAC (locals w2) = Fin (m / 2).
Proof.
  intros V1 V2 S1 S2 HR HS.
  rewrite (valid_MAC_span_free w1 V1), (valid_MAC_span_free w2 V2).
  rewrite S1, S2, HR, HS. cbn [one_plus_R].
  eexists. split; [reflexivity|]. f_equal. field.
  pose proof (valid_sum_areas_pos w1 V1) as Hpos.
  pose proof (valid_span_pos w1 V1) as Hb.
  set (rc := val (chords_root w1)) in *.
  set (b := val (spans_projected w1)) in *.
  assert (HA : Rsum (map (panel_area_R rc (b / one_plus_R (symmetric w1)))
                         (panels (Segments w1)))
               = b / one_plus_R (symmetric w1)
                 * Rsum (map (panel_area_R rc 1) (panels (Segments w1)))).
  { apply Rsum_scale. apply Forall_forall. intros p _.
    unfold panel_area_R. field. rewrite S1. simpl. lra. }
  rewrite HA in Hpos. intros K. rewrite K in Hpos. lra.
Qed.

(** ** Witnesses on the regression wing *)

(** Proves [valid_wing] of a concrete wing. *)
Ltac valid_wing_tac :=
  constructor;
  [ reflexivity | cbn; lra | reflexivity | cbn; lra | simpl; lia
  | reflexivity
  | repeat constructor; cbn; lra
  | repeat constructor; cbn; lra ].

Lemma regression_wing_valid : valid_wing regression_wing.
Proof. valid_wing_tac. Qed.

Lemma reference_area_twice_panel_areas_witness :
  exists w',
    wing_segmented_planform regression_wing = OK w'
    /\ areas_reference w'
       = Fin (2 * Rsum (map (area (val (chords_root regression_wing))
                               (val (spans_projected regression_wing)
                                / one_plus_R (symmetric regression_wing))
                               (Segments regression_wing))
                          (seq 0 (length (Segments regression_wing) - 1)))).
Proof.
  apply (reference_area_twice_panel_areas regression_wing).
  valid_wing_tac.
Defined.

Lemma wetted_area_reference_and_thickness_witness :
  let w := thick_regression_wing in
  let RC := chords_root w in
  let semispan := (spans_projected w / one_plus (symmetric w))%float in
  let rc := val (chords_root w) in
  let h := val (spans_projected w) / one_plus_R (symmetric w) in
  exists w',
    wing_segmented_planform w = OK w'
    /\ areas_wetted w'
       = np_sum (map (panel_wet RC semispan) (panels (Segments w)))
    /\ areas_reference w'
       = (np_sum (map (panel_area RC semispan) (panels (Segments w)))
          * f2)%float
    /\ thickness_to_chord w'
       = (np_sum (map (fun p => panel_area RC semispan p
                                * Segment.thickness_to_chord (fst p))
                      (panels (Segments w)))
          / (areas_reference w' / f2))%float
    /\ isfinite (areas_wetted w') = true
    /\ Rsum (map (panel_wet_R rc h) (panels (Segments w)))
       = Rsum (map (panel_area_R rc h) (panels (Segments w))) * 2
         * (1 + 2 / 10
                * (Rsum (map (fun p => panel_area_R rc h p * thick (fst p))
                             (panels (Segments w)))
                   / (Rsum (map (panel_area_R rc h) (panels (Segments w)))
                      * 2 / 2))).
Proof.
  apply (wetted_area_reference_and_thickness thick_regression_wing).
  valid_wing_tac.
Defined.

(** C10, counterexample.  [thick_regression_wing] in binary64: the wetted
    area is 6.391, the reference area 6.25 and the thickness ratio 0.1128,
    each the float nearest to the decimal.  [reference * (1 + 0.2 *
    thickness)] evaluated in binary64 is the next float below the wetted
    area, and with exact operations on the three outputs the two sides
    differ as well. *)
Lemma wetted_area_relation_is_not_exact :
  let o := Binary64.thick_regression_areas in
  Binary64.wet_area o = Binary64.dec 6391 1000
  /\ Binary64.ref_area o = Binary64.dec 625 100
  /\ Binary64.t_c o = Binary64.dec 1128 10000
  /\ PrimFloat.ltb
       (PrimFloat.mul (Binary64.ref_area o)
          (PrimFloat.add (Binary64.of_Z 1)
             (PrimFloat.mul (Binary64.dec 2 10) (Binary64.t_c o))))
       (Binary64.wet_area o) = true
  /\ ~ (Binary64.to_Q (Binary64.wet_area o)
        == Binary64.to_Q (Binary64.ref_area o)
           * (1 + (2 # 10) * Binary64.to_Q (Binary64.t_c o)))%Q.
Proof.
  cbv zeta. repeat split; try (vm_compute; reflexivity).
  apply Qeq_bool_neq. vm_compute. reflexivity.
Qed.

(** ** Total span *)

Lemma locals_total_len w :
  l_total_len (locals w)
  = (np_sum (map (panel_len (spans_projected w / one_plus (symmetric w)))
                 (panels (Segments w)))
     * one_plus (symmetric w))%float.
Proof. unfold locals. cbn [l_total_len]. panelize. reflexivity. Qed.

Lemma panel_len_with_last_dihedral h d (segs : list Segment.t) :
  (2 <= length segs)%nat ->
  map (panel_len h) (panels (with_last_dihedral segs d))
  = map (panel_len h) (panels segs).
Proof.
  unfold with_last_dihedral.
  induction segs as [|a segs IH]; [simpl; lia|].
  destruct segs as [|b segs]; [simpl; lia|]. intros _.
  destruct segs as [|c segs].
  - reflexivity.
  - change (removelast (a :: b :: c :: segs))
      with (a :: removelast (b :: c :: segs)).
    change (last (a :: b :: c :: segs) no_segment)
      with (last (b :: c :: segs) no_segment).
    change (removelast (b :: c :: segs)) with (b :: removelast (c :: segs))
      in *.
    cbn [app] in *.
    rewrite (panels_cons2 a b), (panels_cons2 a b (c :: segs)).
    cbn [map]. f_equal. apply IH. simpl; lia.
Qed.

(** C4, amended.  On two segments or more the total span is
    [(1 + is_symmetric)] times the sum over the [N-1] panels
    [i = 0 .. N-2] of [panel_span_length[i] / cos(dihedral[i])]: [N-1]
    dihedral values are used, each panel with the dihedral of its inboard
    segment, the outermost panel with the second-to-last one; only the
    dihedral of the last segment is left out, and changing it does not
    change the total span. *)
Theorem total_span_one_dihedral_per_panel (w : Wing) :
  (2 <= length (Segments w))%nat ->
  exists w',
    wing_segmented_planform w = OK w'
    /\ spans_total w'
       = (np_sum (map (true_length
                         (spans_projected w / one_plus (symmetric w))
                         (Segments w))
                      (seq 0 (length (Segments w) - 1)))
          * one_plus (symmetric w))%float
    /\ forall d v v',
         spans_projected v = spans_projected w ->
         symmetric v = symmetric w ->
         Segments v = with_last_dihedral (Segments w) d ->
         wing_segmented_planform v = OK v' ->
         spans_total v' = spans_total w'.
Proof.
  intros HN.
  destruct (planform_ok w HN) as [Cxys [lc [_ [_ [_ E]]]]].
  eexists. split; [exact E|].
  cbn [pack spans_total]. rewrite locals_total_len. split.
  - rewrite (map_panels_seq _ no_segment), Nat.sub_1_r. reflexivity.
  - intros d v v' Hb Hs Hsegs Hv.
    destruct (planform_inv _ _ Hv) as [ac [tl ->]].
    cbn [pack spans_total]. rewrite locals_total_len, Hb, Hs, Hsegs.
    now rewrite panel_len_with_last_dihedral.
Qed.

Lemma total_span_one_dihedral_per_panel_witness :
  exists w',
    wing_segmented_planform regression_wing = OK w'
    /\ spans_total w'
       = (np_sum (map (true_length
                         (spans_projected regression_wing
                          / one_plus (symmetric regression_wing))
                         (Segments regression_wing))
                      (seq 0 (length (Segments regression_wing) - 1)))
          * one_plus (symmetric regression_wing))%float
    /\ forall d v v',
         spans_projected v = spans_projected regression_wing ->
         symmetric v = symmetric regression_wing ->
         Segments v = with_last_dihedral (Segments regression_wing) d ->
         wing_segmented_planform v = OK v' ->
         spans_total v' = spans_total w'.
Proof.
  apply (total_span_one_dihedral_per_panel regression_wing). simpl. lia.
Defined.

(** C4, counterexample.  With [N = 3] segments the claim lets [N - 2 = 1]
    dihedral value enter the total span.  Three wings that differ only in
    the dihedrals of segments 0 and 1: the total span changes with
    [dihedral[0]] and it changes with [dihedral[1]], so both values are
    used. *)
Lemma total_span_uses_both_inboard_dihedrals :
  exists w00 w01 w10,
    wing_segmented_planform (dihedral_wing 0 0) = OK w00
    /\ wing_segmented_planform (dihedral_wing 0 (PI / 3)) = OK w01
    /\ wing_segmented_planform (dihedral_wing (PI / 3) 0) = OK w10
    /\ spans_total w00 = Fin 10
    /\ spans_total w01 = Fin 15
    /\ spans_total w10 = Fin 15.
Proof.
  destruct (planform_ok (dihedral_wing 0 0)) as [C1 [l1 [_ [_ [_ E1]]]]];
    [simpl; lia|].
  destruct (planform_ok (dihedral_wing 0 (PI / 3)))
    as [C2 [l2 [_ [_ [_ E2]]]]]; [simpl; lia|].
  destruct (planform_ok (dihedral_wing (PI / 3) 0))
    as [C3 [l3 [_ [_ [_ E3]]]]]; [simpl; lia|].
  eexists _, _, _. split; [exact E1|]. split; [exact E2|]. split; [exact E3|].
  cbn [pack spans_total]. repeat split.
  - fin_compute. reflexivity.
  - cbn. cbn [fcos]. rewrite cos_PI3. fin_compute. reflexivity.
  - cbn. cbn [fcos]. rewrite cos_PI3. fin_compute. reflexivity.
Qed.

(** ** Untapered wings, trapezoids and the symmetry flag *)

(** Runs the function on a concrete wing of two segments or more; what is
    left is to evaluate its locals. *)
Ltac run_planform w :=
  let C := fresh "Cxys" in
  let lc := fresh "lc" in
  let HC := fresh "HC" in
  let E := fresh "E" in
  destruct (planform_ok w) as [C [lc [HC [_ [_ E]]]]]; [simpl; lia|].










(** C6.  The symmetric run on the half-span description of the trapezoid
    wing (reference area 15/2, aspect ratio 40/3, mean aerodynamic chord
    7/9) against the runs with [symmetric = False]: on the same planform
    laid out tip to tip with the same span and the same chords at the same
    places, and on the same two segments with the projected span kept,
    doubled and halved.  No run reproduces the three outputs; each one
    gives half the mean aerodynamic chord. *)
Theorem symmetric_and_full_span_runs_differ :
  exists ws wf w10 w20 w5,
    wing_segmented_planform (trapezoid_wing true) = OK ws
    /\ wing_segmented_planform full_span_wing = OK wf
    /\ wing_segmented_planform (trapezoid_nonsymmetric 10) = OK w10
    /\ wing_segmented_planform (trapezoid_nonsymmetric 20) = OK w20
    /\ wing_segmented_planform (trapezoid_nonsymmetric 5) = OK w5
    /\ (areas_reference ws = Fin (15 / 2)
        /\ aspect_ratio ws = Fin (40 / 3)
        /\ chords_mean_aerodynamic ws = Fin (7 / 9))
    /\ (areas_reference wf = Fin 15
        /\ aspect_ratio wf = Fin (20 / 3)
        /\ chords_mean_aerodynamic wf = Fin (7 / 18))
    /\ (areas_reference w10 = Fin 15
        /\ aspect_ratio w10 = Fin (20 / 3)
        /\ chords_mean_aerodynamic w10 = Fin (7 / 18))
    /\ (areas_reference w20 = Fin 30
        /\ aspect_ratio w20 = Fin (40 / 3)
        /\ chords_mean_aerodynamic w20 = Fin (7 / 18))
    /\ (areas_reference w5 = Fin (15 / 2)
        /\ aspect_ratio w5 = Fin (10 / 3)
        /\ chords_mean_aerodynamic w5 = Fin (7 / 18)).
Proof.
  run_planform (trapezoid_wing true).
  run_planform full_span_wing.
  run_planform (trapezoid_nonsymmetric 10).
  run_planform (trapezoid_nonsymmetric 20).
  run_planform (trapezoid_nonsymmetric 5).
  eexists _, _, _, _, _.
  split; [exact E|]. split; [exact E0|]. split; [exact E1|].
  split; [exact E2|]. split; [exact E3|].
  cbn [pack areas_reference aspect_ratio chords_mean_aerodynamic].
  repeat split; fin_compute; reflexivity.
Qed.

(** C3, counterexample.  On the constant-chord wing with
    [symmetric = False] the aerodynamic center packed is the weighted sum
    over the whole reference area, half of what dividing by half the
    reference area gives.  With [symmetric = True] the division is by half
    the reference area, but the second component is 0 and not the weighted
    sum 5/2. *)
Lemma center_is_not_over_half_reference :
  exists wa Ca wb Cb,
    wing_segmented_planform (rectangular_wing false) = OK wa
    /\ centroids (rectangular_wing false) (locals (rectangular_wing false))
       = OK Ca
    /\ aerodynamic_center wa = Vec3 (Fin (1 / 8)) (Fin (5 / 4)) (Fin 0)
    /\ center_over_half_reference Ca
         (l_As (locals (rectangular_wing false))) (areas_reference wa)
       = Vec3 (Fin (1 / 4)) (Fin (5 / 2)) (Fin 0)
    /\ wing_segmented_planform (rectangular_wing true) = OK wb
    /\ centroids (rectangular_wing true) (locals (rectangular_wing true))
       = OK Cb
    /\ aerodynamic_center wb = Vec3 (Fin (1 / 2)) (Fin 0) (Fin 0)
    /\ center_over_half_reference Cb
         (l_As (locals (rectangular_wing true))) (areas_reference wb)
       = Vec3 (Fin (1 / 2)) (Fin (5 / 2)) (Fin 0).
Proof.
  eexists _, _, _, _.
  split; [unfold wing_segmented_planform; cbn; reflexivity|].
  split; [cbn; reflexivity|].
  split; [|split].
  - cbn [aerodynamic_center pack].
    unfold normalised_center, weighted, segment_centroid.
    fin_compute. reflexivity.
  - cbn [areas_reference pack].
    unfold center_over_half_reference, weighted, segment_centroid.
    fin_compute. reflexivity.
  - split; [unfold wing_segmented_planform; cbn; reflexivity|].
    split; [cbn; reflexivity|]. split.
    + cbn [aerodynamic_center pack].
      unfold normalised_center, weighted, segment_centroid.
      fin_compute. reflexivity.
    + cbn [areas_reference pack].
      unfold center_over_half_reference, weighted, segment_centroid.
      fin_compute. reflexivity.
Qed.

(* ------------------------------------------------------------------ *)
(** * More of the planform computation *)

(** ** Angles, sums and panels *)

Lemma symmetric_swept_wing_valid : valid_wing symmetric_swept_wing.
Proof. valid_wing_tac. Qed.

Lemma finite_segment_angles g :
  finite_segment g = true ->
  Segment.sweeps_quarter_chord g = Fin (sweep g)
  /\ Segment.dihedral_outboard g = Fin (dihedral g).
Proof.
  unfold finite_segment. rewrite !andb_true_iff.
  intros [[[[[_ _] _] Hs] _] Hd]. split; now apply isfinite_val.
Qed.

Lemma Rsum_le {A : Type} (f g : A -> R) (l : list A) :
  Forall (fun p => f p <= g p) l -> Rsum (map f l) <= Rsum (map g l).
Proof.
  induction 1 as [|p l Hp _ IH]; cbn [map Rsum fold_right]; [lra|].
  fold (Rsum (map f l)). fold (Rsum (map g l)). lra.
Qed.

Lemma Forall_inboard {A : Type} (P : A -> Prop) (l : list A) :
  Forall P (removelast l) -> Forall (fun p => P (fst p)) (panels l).
Proof. rewrite <- map_fst_panels, Forall_map. auto. Qed.

Lemma valid_segments_nonempty w : valid_wing w -> Segments w <> [].
Proof.
  intros V E. pose proof (valid_count w V) as H. rewrite E in H.
  simpl in H. lia.
Qed.

Lemma getlast_map_last {A B : Type} (f : A -> B) (d : A) (l : list A) :
  l <> [] -> getlast (map f l) = OK (f (last l d)).
Proof.
  destruct l as [|x t]; [contradiction|]. intros _. cbn [map getlast].
  f_equal. revert x. induction t as [|y t IH]; intros x; [reflexivity|].
  destruct t as [|z t]; [reflexivity|].
  change (last (map f (y :: z :: t)) (f x))
    with (last (map f (z :: t)) (f x)).
  change (last (x :: y :: z :: t) d) with (last (z :: t) d).
  rewrite (IH x). reflexivity.
Qed.

Lemma combine_map_both {A B : Type} (f : A -> B) (xs ys : list A) :
  combine (map f xs) (map f ys)
  = map (fun p => (f (fst p), f (snd p))) (combine xs ys).
Proof.
  revert ys. induction xs as [|x xs IH]; intros [|y ys]; try reflexivity.
  cbn [map combine fst snd]. now rewrite IH.
Qed.

Lemma panels_map {A B : Type} (f : A -> B) (l : list A) :
  panels (map f l) = map (fun p => (f (fst p), f (snd p))) (panels l).
Proof.
  unfold panels. rewrite removelast_map.
  replace (tl (map f l)) with (map f (tl l)) by (now destruct l).
  apply combine_map_both.
Qed.

(** ** Total span *)

Lemma panel_len_fin h p :
  finite_segment (fst p) = true -> finite_segment (snd p) = true ->
  cos (dihedral (fst p)) <> 0 ->
  panel_len (Fin h) p
  = Fin ((span_loc (snd p) - span_loc (fst p)) * h
         / cos (dihedral (fst p))).
Proof.
  intros Ha Hb Hc.
  destruct (finite_segment_fields _ Ha) as [Sa _].
  destruct (finite_segment_fields _ Hb) as [Sb _].
  destruct (finite_segment_angles _ Ha) as [_ Da].
  unfold panel_len, panel_length_dim, panel_length_ndim.
  rewrite Sa, Sb, Da. cbn [fcos]. rewrite fsub_fin, fmul_fin.
  now apply fdiv_fin.
Qed.

Lemma valid_total_len w :
  valid_wing w ->
  Forall (fun p => cos (dihedral (fst p)) <> 0) (panels (Segments w)) ->
  l_total_len (locals w)
  = Fin (Rsum (map (fun p => (span_loc (snd p) - span_loc (fst p))
                             * (val (spans_projected w)
                                / one_plus_R (symmetric w))
                             / cos (dihedral (fst p)))
                   (panels (Segments w)))
         * one_plus_R (symmetric w)).
Proof.
  intros V Hc. rewrite locals_total_len.
  change (spans_projected w / one_plus (symmetric w))%float
    with (l_semispan (locals w)).
  rewrite (valid_semispan w V), one_plus_fin.
  rewrite (np_sum_fin _ (fun p => (span_loc (snd p) - span_loc (fst p))
                             * (val (spans_projected w)
                                / one_plus_R (symmetric w))
                             / cos (dihedral (fst p)))).
  - reflexivity.
  - pose proof (valid_panels_finite w V) as HF.
    rewrite Forall_forall in *. intros p Hp.
    destruct (HF p Hp). apply panel_len_fin; auto.
Qed.

Lemma flattened_valid w : valid_wing w -> valid_wing (flattened w).
Proof.
  intros V. constructor; cbn [flattened spans_projected chords_root Segments].
  - apply V.
  - apply V.
  - apply V.
  - apply V.
  - rewrite length_map. apply V.
  - pose proof (valid_finite w V) as HF.
    rewrite forallb_forall in *. intros g Hg.
    apply in_map_iff in Hg. destruct Hg as [g0 [<- Hg0]].
    specialize (HF g0 Hg0). unfold finite_segment in *.
    cbn [set_dihedral Segment.percent_span_location Segment.twist
         Segment.root_chord_percent Segment.sweeps_quarter_chord
         Segment.thickness_to_chord Segment.dihedral_outboard].
    rewrite !andb_true_iff in *. repeat split; first [apply HF | reflexivity].
  - apply Forall_map. eapply Forall_impl; [|exact (valid_chords w V)].
    intros g Hg. exact Hg.
  - rewrite panels_map. apply Forall_map.
    eapply Forall_impl; [|exact (valid_increasing w V)].
    intros p Hp. exact Hp.
Qed.

(** X4.  Dihedral never shortens the wing: with every dihedral but the
    last strictly between -pi/2 and pi/2, the total span is at least the
    total span the function gives the same wing with all dihedrals set to
    0.  Each panel length is divided by a cosine in (0, 1], and sums and
    products keep the order. *)
Theorem dihedral_never_shortens_total_span (w : Wing) :
  valid_wing w ->
  Forall (fun g => - (PI / 2) < dihedral g < PI / 2)
         (removelast (Segments w)) ->
  exists w' v' t t0,
    wing_segmented_planform w = OK w'
    /\ wing_segmented_planform (flattened w) = OK v'
    /\ spans_total w' = Fin t
    /\ spans_total v' = Fin t0
    /\ t0 <= t.
Proof.
  intros V Hd.
  pose proof (flattened_valid w V) as VF.
  destruct (planform_ok w (valid_count w V)) as [C1 [l1 [_ [_ [_ E1]]]]].
  destruct (planform_ok _ (valid_count _ VF)) as [C2 [l2 [_ [_ [_ E2]]]]].
  pose proof (Forall_inboard _ _ Hd) as HdP.
  assert (Hcos : Forall (fun p => 0 < cos (dihedral (fst p)))
                        (panels (Segments w))).
  { eapply Forall_impl; [|exact HdP]. intros p Hp. cbv beta in Hp.
    apply cos_gt_0; lra. }
  assert (T1 := valid_total_len w V).
  rewrite <- Forall_forall in T1 || idtac.
  assert (T1' : Forall (fun p => cos (dihedral (fst p)) <> 0)
                       (panels (Segments w))).
  { eapply Forall_impl; [|exact Hcos]. intros p Hp. cbv beta in Hp. lra. }
  specialize (T1 T1').
  assert (T2 := valid_total_len _ VF).
  assert (T2' : Forall (fun p => cos (dihedral (fst p)) <> 0)
                       (panels (Segments (flattened w)))).
  { cbn [flattened Segments]. rewrite panels_map. apply Forall_map.
    apply Forall_forall. intros p _. cbn [fst].
    unfold dihedral, set_dihedral, f0.
    cbn [Segment.dihedral_outboard val]. rewrite cos_0. lra. }
  specialize (T2 T2').
  eexists. eexists. eexists. eexists.
  split; [exact E1|]. split; [exact E2|].
  unfold pack; cbn [spans_total].
  split; [exact T1|]. split; [exact T2|].
  cbn [flattened Segments spans_projected symmetric].
  rewrite panels_map, map_map.
  pose proof (one_plus_R_pos (symmetric w)) as Hop.
  apply Rmult_le_compat_r; [lra|].
  apply Rsum_le.
  pose proof (valid_increasing w V) as HI.
  pose proof (valid_semispan_pos w V) as Hh.
  rewrite Forall_forall in *. intros p Hp. cbn [fst snd].
  unfold dihedral at 1, span_loc at 1 2, set_dihedral, f0.
  cbn [Segment.dihedral_outboard Segment.percent_span_location val].
  fold (span_loc (snd p)) (span_loc (fst p)).
  rewrite cos_0.
  specialize (HI p Hp). specialize (Hcos p Hp). cbv beta in HI, Hcos.
  pose proof (COS_bound (dihedral (fst p))) as [_ Hle].
  set (len := (span_loc (snd p) - span_loc (fst p))
              * (val (spans_projected w) / one_plus_R (symmetric w))).
  assert (Hlen : 0 < len) by (apply Rmult_lt_0_compat; lra).
  set (cs := cos (dihedral (fst p))) in *.
  apply Rmult_le_reg_r with cs; [exact Hcos|].
  replace (len / cs * cs) with len by (field; lra).
  replace (len / 1 * cs) with (len * cs) by field.
  nra.
Qed.

Lemma dihedral_never_shortens_total_span_witness :
  exists w' v' t t0,
    wing_segmented_planform symmetric_swept_wing = OK w'
    /\ wing_segmented_planform (flattened symmetric_swept_wing) = OK v'
    /\ spans_total w' = Fin t
    /\ spans_total v' = Fin t0
    /\ t0 <= t.
Proof.
  apply (dihedral_never_shortens_total_span symmetric_swept_wing).
  - exact symmetric_swept_wing_valid.
  - pose proof PI2_3_2. repeat constructor; cbn; lra.
Defined.

(** ** Wetted area *)

Lemma valid_wet_area w :
  valid_wing w ->
  l_wet_area (locals w)
  = Fin (Rsum (map (panel_wet_R (val (chords_root w))
                      (val (spans_projected w) / one_plus_R (symmetric w)))
                   (panels (Segments w)))).
Proof.
  intros V.
  rewrite locals_wet_area, (valid_root_fin w V), (valid_semispan w V).
  apply np_sum_fin.
  eapply Forall_impl; [|exact (valid_panels_finite w V)].
  intros p [Ha Hb]. unfold panel_wet, panel_wet_R.
  rewrite (panel_area_fin _ _ _ Ha Hb).
  destruct (finite_segment_fields _ Ha) as [_ [_ ->]].
  unfold f1, f2, f0_2. fin_eval. reflexivity.
Qed.

(** X18.  With thickness ratios that are not negative (the last segment
    apart) the wetted area of a well-formed wing is at least its reference
    area, and the two are equal when the thickness ratios are 0.  Every
    panel contributes [2*(1+0.2*t)] times its area to the one and twice its
    area to the other. *)
Theorem wetted_area_at_least_reference (w : Wing) :
  valid_wing w ->
  Forall (fun g => 0 <= thick g) (removelast (Segments w)) ->
  exists w' W S,
    wing_segmented_planform w = OK w'
    /\ areas_wetted w' = Fin W
    /\ areas_reference w' = Fin S
    /\ S <= W
    /\ (Forall (fun g => thick g = 0) (removelast (Segments w)) -> W = S).
Proof.
  intros V Ht.
  destruct (planform_ok w (valid_count w V)) as [Cxys [lc [_ [_ [_ E]]]]].
  eexists. eexists. eexists. split; [exact E|].
  unfold pack; cbn [areas_wetted areas_reference].
  split; [exact (valid_wet_area w V)|].
  split; [exact (valid_ref_area w V)|].
  set (rc := val (chords_root w)).
  set (h := val (spans_projected w) / one_plus_R (symmetric w)).
  assert (HA : Forall (fun p => 0 < panel_area_R rc h p)
                      (panels (Segments w))).
  { pose proof (valid_increasing w V) as HI.
    pose proof (Forall_panels _ _ (valid_chords w V)) as HC.
    rewrite Forall_forall in *. intros p Hp.
    destruct (HC p Hp) as [Ca Cb].
    apply panel_area_R_pos; auto.
    - apply V.
    - apply valid_semispan_pos, V. }
  assert (H2 : 2 * Rsum (map (panel_area_R rc h) (panels (Segments w)))
               = Rsum (map (fun p => 2 * panel_area_R rc h p)
                           (panels (Segments w)))).
  { symmetry. apply Rsum_scale. apply Forall_forall. intros; reflexivity. }
  rewrite H2. split.
  - apply Rsum_le.
    pose proof (Forall_inboard _ _ Ht) as HtP.
    rewrite Forall_forall in *. intros p Hp.
    specialize (HA p Hp). specialize (HtP p Hp). cbv beta in HA, HtP.
    unfold panel_wet_R. nra.
  - intros H0. pose proof (Forall_inboard _ _ H0) as H0P.
    f_equal. apply map_ext_in. intros p Hp.
    rewrite Forall_forall in H0P. specialize (H0P p Hp). cbv beta in H0P.
    unfold panel_wet_R. rewrite H0P. lra.
Qed.

Lemma wetted_area_at_least_reference_witness :
  exists w' W S,
    wing_segmented_planform regression_wing = OK w'
    /\ areas_wetted w' = Fin W
    /\ areas_reference w' = Fin S
    /\ S <= W
    /\ (Forall (fun g => thick g = 0)
               (removelast (Segments regression_wing)) -> W = S).
Proof.
  apply (wetted_area_at_least_reference regression_wing).
  - exact regression_wing_valid.
  - repeat constructor; cbn; lra.
Defined.

(** ** The centroid of a panel *)

(** X14.  [segment_centroid] puts the centroid of a panel with span
    [s >= 0] and taper [t >= 0] between a sixth and a third of the span
    outboard of the panel root [dy]: the spanwise coordinate it returns
    lies between [s/6 + dy] and [2*(s/6) + dy], each evaluated as the
    function evaluates its own expression.  The factor
    [(1 + 2*t)/(1 + t)] lies between 1 and 2. *)
Theorem segment_centroid_between_sixth_and_third
  (le_sweep dx dz A mac dh : float) (s y t : R) :
  0 <= s -> 0 <= t ->
  exists lo cy hi,
    (Fin s / f6 + Fin y)%float = Fin lo
    /\ cy_of (segment_centroid le_sweep (Fin s) dx (Fin y) dz (Fin t) A mac dh)
       = Fin cy
    /\ (f2 * (Fin s / f6) + Fin y)%float = Fin hi
    /\ lo <= cy <= hi.
Proof.
  intros Hs Ht. unfold segment_centroid, cy_of. cbn [fst snd].
  unfold f1, f2, f6. rewrite !fmul_fin, !fadd_fin.
  rewrite (fdiv_fin s 6), (fdiv_fin (1 + 2 * t)) by lra.
  rewrite !fmul_fin, !fadd_fin.
  eexists. eexists. eexists.
  split; [reflexivity|]. split; [reflexivity|]. split; [reflexivity|].
  assert (H1 : 1 <= (1 + 2 * t) / (1 + t)).
  { apply Rmult_le_reg_r with (1 + t); [lra|].
    replace ((1 + 2 * t) / (1 + t) * (1 + t)) with (1 + 2 * t)
      by (field; lra). lra. }
  assert (H2 : (1 + 2 * t) / (1 + t) <= 2).
  { apply Rmult_le_reg_r with (1 + t); [lra|].
    replace ((1 + 2 * t) / (1 + t) * (1 + t)) with (1 + 2 * t)
      by (field; lra). lra. }
  set (r := (1 + 2 * t) / (1 + t)) in *.
  split; nra.
Qed.

Lemma segment_centroid_between_sixth_and_third_witness :
  exists lo cy hi,
    (Fin 2 / f6 + Fin 0)%float = Fin lo
    /\ cy_of (segment_centroid (Fin 0) (Fin 2) (Fin 0) (Fin 0) (Fin 0)
                (Fin (1 / 2)) (Fin 0) (Fin 0) (Fin 0))
       = Fin cy
    /\ (f2 * (Fin 2 / f6) + Fin 0)%float = Fin hi
    /\ lo <= cy <= hi.
Proof.
  apply (segment_centroid_between_sixth_and_third (Fin 0) (Fin 0) (Fin 0)
           (Fin 0) (Fin 0) (Fin 0) 2 0 (1 / 2)); lra.
Defined.

(** ** The centroids by panel index *)

Lemma getitem_inv {A : Type} (xs : list A) (i : nat) (x : A) :
  getitem xs i = OK x -> nth_error xs i = Some x.
Proof.
  unfold getitem. destruct (nth_error xs i); [|discriminate].
  intros H. now injection H as ->.
Qed.

Lemma mapM_nth_error {A B : Type} (f : A -> result B) (xs : list A)
  (ys : list B) (i : nat) (x : A) :
  mapM f xs = OK ys -> nth_error xs i = Some x ->
  exists y, nth_error ys i = Some y /\ f x = OK y.
Proof.
  revert ys i. induction xs as [|a xs IH]; intros ys i.
  - destruct i; discriminate.
  - cbn [mapM]. destruct (f a) as [b|e] eqn:Fa; cbn [bind]; [|discriminate].
    destruct (mapM f xs) as [bs|e] eqn:M; cbn [bind]; [|discriminate].
    intros H. injection H as <-. destruct i as [|i]; cbn [nth_error].
    + intros H. injection H as <-. eauto.
    + intros H. now apply (IH bs i).
Qed.

(** Entry [i] of [Cxys] is the centroid computed from entry [i] of the
    nine arrays. *)
Lemma centroids_nth w Cxys i :
  centroids w (locals w) = OK Cxys ->
  (i < pred (length (Segments w)))%nat ->
  exists le len dx dy dz tp Ai pm dh,
    nth_error (l_le_sweeps (locals w)) i = Some le
    /\ nth_error (l_lengths_dim (locals w)) i = Some len
    /\ nth_error (l_dxs (locals w)) i = Some dx
    /\ nth_error (l_dys (locals w)) i = Some dy
    /\ nth_error (l_dzs (locals w)) i = Some dz
    /\ nth_error (l_tapers (locals w)) i = Some tp
    /\ nth_error (l_As (locals w)) i = Some Ai
    /\ nth_error (l_panel_mac (locals w)) i = Some pm
    /\ nth_error (map Segment.dihedral_outboard (Segments w)) i = Some dh
    /\ nth_error Cxys i
       = Some (segment_centroid le (len * one_plus (symmetric w))%float
                 dx dy dz tp Ai pm dh).
Proof.
  intros HC Hi. unfold centroids in HC.
  assert (Hlen : length (l_lengths_dim (locals w))
                 = pred (length (Segments w))).
  { unfold locals; cbn [l_lengths_dim]. panel_length. }
  rewrite Hlen in HC.
  assert (Hseq : nth_error (seq 0 (pred (length (Segments w)))) i = Some i).
  { rewrite nth_error_seq. apply Nat.ltb_lt in Hi. now rewrite Hi. }
  destruct (mapM_nth_error _ _ _ _ _ HC Hseq) as [c [Hc Fc]].
  destruct (getitem (l_le_sweeps (locals w)) i) as [le|] eqn:G1;
    cbn [bind] in Fc; [|discriminate].
  destruct (getitem (l_lengths_dim (locals w)) i) as [len|] eqn:G2;
    cbn [bind] in Fc; [|discriminate].
  destruct (getitem (l_dxs (locals w)) i) as [dx|] eqn:G3;
    cbn [bind] in Fc; [|discriminate].
  destruct (getitem (l_dys (locals w)) i) as [dy|] eqn:G4;
    cbn [bind] in Fc; [|discriminate].
  destruct (getitem (l_dzs (locals w)) i) as [dz|] eqn:G5;
    cbn [bind] in Fc; [|discriminate].
  destruct (getitem (l_tapers (locals w)) i) as [tp|] eqn:G6;
    cbn [bind] in Fc; [|discriminate].
  destruct (getitem (l_As (locals w)) i) as [Ai|] eqn:G7;
    cbn [bind] in Fc; [|discriminate].
  destruct (getitem (l_panel_mac (locals w)) i) as [pm|] eqn:G8;
    cbn [bind] in Fc; [|discriminate].
  destruct (getitem (map Segment.dihedral_outboard (Segments w)) i)
    as [dh|] eqn:G9; cbn [bind] in Fc; [|discriminate].
  injection Fc as <-.
  exists le, len, dx, dy, dz, tp, Ai, pm, dh.
  repeat split; try (now apply getitem_inv). exact Hc.
Qed.

(** ** The vertical position of the aerodynamic center *)

Lemma nth_error_removelast {A : Type} (l : list A) (i : nat) :
  (i < pred (length l))%nat ->
  nth_error (removelast l) i = nth_error l i.
Proof.
  revert i. induction l as [|a [|b l] IH]; intros i Hi; cbn [length pred] in Hi.
  - lia.
  - lia.
  - change (removelast (a :: b :: l)) with (a :: removelast (b :: l)).
    destruct i as [|i]; [reflexivity|]. cbn [nth_error].
    apply IH. cbn [length pred]. lia.
Qed.

Lemma Forall_removelast {A : Type} (P : A -> Prop) (l : list A) :
  Forall P l -> Forall P (removelast l).
Proof.
  induction l as [|a [|b l] IH]; intros H; try constructor.
  - now inversion H.
  - apply IH. now inversion H.
Qed.

Lemma locals_lengths_dim w :
  l_lengths_dim (locals w)
  = map (panel_length_dim (l_semispan (locals w))) (panels (Segments w)).
Proof.
  unfold locals. cbn [l_lengths_dim l_semispan]. panelize. reflexivity.
Qed.

Lemma locals_tapers w :
  l_tapers (locals w)
  = map (fun p => (Segment.root_chord_percent (snd p)
                   / Segment.root_chord_percent (fst p))%float)
        (panels (Segments w)).
Proof.
  unfold locals. cbn [l_tapers]. panelize. reflexivity.
Qed.

Lemma panel_length_dim_fin h p :
  finite_segment (fst p) = true -> finite_segment (snd p) = true ->
  panel_length_dim (Fin h) p = Fin ((span_loc (snd p) - span_loc (fst p)) * h).
Proof.
  intros Ha Hb.
  destruct (finite_segment_fields _ Ha) as [Sa _].
  destruct (finite_segment_fields _ Hb) as [Sb _].
  unfold panel_length_dim, panel_length_ndim. rewrite Sa, Sb.
  now rewrite fsub_fin, fmul_fin.
Qed.

Lemma cumsum_from_zeros (zs : array) :
  Forall (fun z => z = Fin 0) zs ->
  Forall (fun z => z = Fin 0) (cumsum_from (Fin 0) zs).
Proof.
  induction 1 as [|z zs Hz _ IH]; cbn [cumsum_from]; [constructor|].
  subst z. rewrite fadd_fin. replace (0 + 0) with 0 by lra.
  now constructor.
Qed.

Lemma Forall_map2 {A B C : Type} (f : A -> B -> C) (P : A -> Prop)
  (Q : B -> Prop) (T : C -> Prop) (xs : list A) (ys : list B) :
  (forall x y, P x -> Q y -> T (f x y)) ->
  Forall P xs -> Forall Q ys -> Forall T (map2 f xs ys).
Proof.
  intros HT HP. revert ys. induction HP as [|x xs Hx _ IH]; intros ys HQ.
  - constructor.
  - destruct HQ as [|y ys Hy HQ]; cbn [map2]; constructor; auto.
Qed.

Lemma np_sum_zeros (zs : array) :
  Forall (fun z => z = Fin 0) zs -> np_sum zs = Fin 0.
Proof.
  induction 1 as [|z zs Hz _ IH]; [reflexivity|].
  cbn [np_sum fold_right]. fold (np_sum zs). rewrite Hz, IH, fadd_fin.
  f_equal. lra.
Qed.

(** The vertical offsets of the panel roots on a wing whose inboard
    dihedrals are zero. *)
Lemma flat_dzs w :
  valid_wing w ->
  Forall (fun g => dihedral g = 0) (removelast (Segments w)) ->
  Forall (fun z => z = Fin 0) (l_dzs (locals w)).
Proof.
  intros V Hflat. unfold locals; cbn [l_dzs]. unfold np_cumsum.
  constructor; [reflexivity|]. apply cumsum_from_zeros.
  unfold amul.
  apply (Forall_map2 _ (fun t => t = Fin 0) (fun l => isfinite l = true)).
  - intros x y -> Hy. apply isfinite_val in Hy. rewrite Hy, fmul_fin.
    f_equal. lra.
  - apply Forall_map. unfold drop_last2. apply Forall_removelast.
    rewrite removelast_map. apply Forall_map.
    pose proof (valid_finite w V) as HF.
    rewrite forallb_forall in HF. rewrite <- Forall_forall in HF.
    apply Forall_removelast in HF.
    rewrite Forall_forall in *. intros g Hg.
    destruct (finite_segment_angles g (HF g Hg)) as [_ Hd].
    rewrite Hd, (Hflat g Hg). unfold ftan. now rewrite tan_0.
  - apply Forall_removelast.
    change (Forall (fun l => isfinite l = true) (l_lengths_dim (locals w))).
    rewrite locals_lengths_dim, (valid_semispan w V). apply Forall_map.
    eapply Forall_impl; [|exact (valid_panels_finite w V)].
    intros p [Ha Hb]. now rewrite panel_length_dim_fin.
Qed.

(** X15.  When no segment but the last has dihedral, the aerodynamic center
    of a well-formed wing has height 0. *)
Theorem flat_wing_center_has_no_height (w : Wing) :
  valid_wing w ->
  Forall (fun g => dihedral g = 0) (removelast (Segments w)) ->
  exists w' x y,
    wing_segmented_planform w = OK w'
    /\ aerodynamic_center w' = Vec3 x y (Fin 0).
Proof.
  intros V Hflat.
  destruct (planform_ok w (valid_count w V)) as [Cxys [lc [HC [HL [_ E]]]]].
  eexists. eexists. eexists. split; [exact E|].
  unfold pack; cbn [aerodynamic_center]. unfold normalised_center.
  f_equal.
  assert (HW : weighted cz_of Cxys (l_As (locals w)) = Fin 0).
  { unfold weighted. apply np_sum_zeros.
    apply (Forall_map2 _ (fun c => cz_of c = Fin 0)
             (fun a => isfinite a = true)).
    - intros c a -> Ha. apply isfinite_val in Ha. rewrite Ha, fmul_fin.
      f_equal. lra.
    - apply Forall_forall. intros c Hc.
      destruct (In_nth_error _ _ Hc) as [i Hi].
      assert (Hlt : (i < pred (length (Segments w)))%nat).
      { rewrite <- HL. apply nth_error_Some. now rewrite Hi. }
      destruct (centroids_nth w Cxys i HC Hlt)
        as (le & len & dx & dy & dz & tp & Ai & pm & dh
            & _ & Hlen & _ & _ & Hdz & Htp & _ & _ & Hdh & Hci).
      rewrite Hi in Hci. injection Hci as ->.
      (* the panel length is finite *)
      apply nth_error_In in Hlen.
      rewrite locals_lengths_dim, (valid_semispan w V) in Hlen.
      apply in_map_iff in Hlen. destruct Hlen as [p [Hp Hin]].
      pose proof (valid_panels_finite w V) as HF.
      rewrite Forall_forall in HF. destruct (HF p Hin) as [Ha Hb].
      rewrite panel_length_dim_fin in Hp by assumption. subst len.
      (* the taper of the panel is positive *)
      apply nth_error_In in Htp. rewrite locals_tapers in Htp.
      apply in_map_iff in Htp. destruct Htp as [q [Hq Hinq]].
      destruct (HF q Hinq) as [Hqa Hqb].
      destruct (finite_segment_fields _ Hqa) as [_ [Ca _]].
      destruct (finite_segment_fields _ Hqb) as [_ [Cb _]].
      pose proof (Forall_panels (fun g => 0 < chord g) _ (valid_chords w V))
        as HCh.
      rewrite Forall_forall in HCh. destruct (HCh q Hinq) as [Pa Pb].
      rewrite Ca, Cb, fdiv_fin in Hq by lra. subst tp.
      assert (0 < chord (snd q) / chord (fst q)) by now apply Rdiv_pos_pos.
      (* the offset and the dihedral are zero *)
      apply nth_error_In in Hdz.
      pose proof (flat_dzs w V Hflat) as HZ. rewrite Forall_forall in HZ.
      rewrite (HZ dz Hdz).
      rewrite <- (nth_error_removelast _ i) in Hdh
        by (rewrite length_map; exact Hlt).
      apply nth_error_In in Hdh. rewrite removelast_map in Hdh.
      apply in_map_iff in Hdh. destruct Hdh as [g [Hg Hing]].
      pose proof (valid_finite w V) as HFs.
      rewrite forallb_forall in HFs. rewrite <- Forall_forall in HFs.
      apply Forall_removelast in HFs. rewrite Forall_forall in HFs.
      destruct (finite_segment_angles g (HFs g Hing)) as [_ Hd].
      rewrite Forall_forall in Hflat.
      rewrite Hd, (Hflat g Hing) in Hg. subst dh.
      unfold segment_centroid, cz_of, ftan. cbn [snd].
      rewrite one_plus_fin, tan_0. unfold f1, f2, f6.
      rewrite !fmul_fin, !fadd_fin, (fdiv_fin _ 6) by lra.
      rewrite fdiv_fin by lra. rewrite !fmul_fin, fadd_fin.
      f_equal. lra.
    - rewrite locals_As, (valid_root_fin w V), (valid_semispan w V).
      apply Forall_map.
      eapply Forall_impl; [|exact (valid_panels_finite w V)].
      intros p [Ha Hb]. now rewrite panel_area_fin. }
  rewrite HW, (valid_ref_area w V), one_plus_fin.
  pose proof (valid_sum_areas_pos w V) as HS.
  pose proof (one_plus_R_pos (symmetric w)) as Hop.
  rewrite (fdiv_fin (2 * _)) by lra.
  rewrite fdiv_fin.
  - f_equal. unfold Rdiv. lra.
  - apply Rgt_not_eq. apply Rdiv_pos_pos; lra.
Qed.

Lemma flat_wing_center_has_no_height_witness :
  exists w' x y,
    wing_segmented_planform regression_wing = OK w'
    /\ aerodynamic_center w' = Vec3 x y (Fin 0).
Proof.
  apply (flat_wing_center_has_no_height regression_wing).
  - exact regression_wing_valid.
  - repeat constructor.
Defined.

(** ** A panel of zero width *)

Lemma locals_panel_mac w :
  l_panel_mac (locals w)
  = map (fun p => (panel_integral (chords_root w) p
                   * panel_length_dim (l_semispan (locals w)) p
                   * one_plus (symmetric w)
                   / panel_area (chords_root w) (l_semispan (locals w)) p)%float)
        (panels (Segments w)).
Proof.
  unfold locals. cbn [l_panel_mac l_semispan]. panelize. reflexivity.
Qed.

Lemma nth_error_map2 {A B C : Type} (f : A -> B -> C) (xs : list A)
  (ys : list B) (i : nat) (x : A) (y : B) :
  nth_error xs i = Some x -> nth_error ys i = Some y ->
  nth_error (map2 f xs ys) i = Some (f x y).
Proof.
  revert ys i. induction xs as [|a xs IH]; intros [|b ys] [|i];
    cbn [nth_error map2]; try discriminate.
  - intros H1 H2. injection H1 as ->. now injection H2 as ->.
  - apply IH.
Qed.

Lemma np_sum_nan (xs : array) : In NaN xs -> np_sum xs = NaN.
Proof.
  induction xs as [|a xs IH]; [intros []|].
  cbn [np_sum fold_right]. fold (np_sum xs). intros [->|H].
  - reflexivity.
  - rewrite (IH H). now destruct a.
Qed.

(** Zero times anything is zero or not a number. *)
Lemma fmul_by_zero x z :
  z = 0 -> (x * Fin z)%float = NaN \/ (x * Fin z)%float = Fin 0.
Proof.
  intros ->. destruct x as [a| | |].
  - right. rewrite fmul_fin. f_equal. lra.
  - left. unfold fmul, inf_times.
    destruct (Req_dec_T 0 0) as [_|N]; [reflexivity|now contradiction N].
  - left. unfold fmul, inf_times.
    destruct (Req_dec_T 0 0) as [_|N]; [reflexivity|now contradiction N].
  - now left.
Qed.

(** The mean aerodynamic chord of a panel of zero width is [0/0]. *)
Lemma zero_width_panel_mac rc h sym p :
  finite_segment (fst p) = true -> finite_segment (snd p) = true ->
  span_loc (fst p) = span_loc (snd p) ->
  (panel_integral (Fin rc) p * panel_length_dim (Fin h) p * one_plus sym
   / panel_area (Fin rc) (Fin h) p)%float = NaN.
Proof.
  intros Ha Hb Hs.
  rewrite panel_length_dim_fin, panel_area_fin, one_plus_fin by assumption.
  destruct (fmul_by_zero (panel_integral (Fin rc) p)
              ((span_loc (snd p) - span_loc (fst p)) * h)) as [-> | ->].
  - rewrite Hs. lra.
  - reflexivity.
  - rewrite fmul_fin. apply fdiv_0_0; [lra|].
    unfold panel_area_R. rewrite Hs.
    replace (span_loc (snd p) - span_loc (snd p)) with 0 by lra.
    unfold Rdiv. rewrite !Rmult_0_l, Rmult_0_r, Rmult_0_l, Rminus_0_r.
    apply Rmult_0_r.
Qed.

(** X16.  Two consecutive segments at the same span fraction bound a panel
    of zero width.  On finite input the function still returns, with a
    finite reference area, but the chordwise position of the aerodynamic
    center is NaN: the mean aerodynamic chord of that panel is [0/0]. *)
Theorem zero_width_panel_center_is_nan (w : Wing)
  (p : Segment.t * Segment.t) :
  isfinite (spans_projected w) = true ->
  isfinite (chords_root w) = true ->
  forallb finite_segment (Segments w) = true ->
  In p (panels (Segments w)) ->
  span_loc (fst p) = span_loc (snd p) ->
  exists w' y z,
    wing_segmented_planform w = OK w'
    /\ aerodynamic_center w' = Vec3 NaN y z
    /\ isfinite (areas_reference w') = true.
Proof.
  intros Hb Hrc HF Hp Hs.
  assert (HN : (2 <= length (Segments w))%nat).
  { destruct (Segments w) as [|a [|c l]]; simpl in *; try contradiction. lia. }
  destruct (planform_ok w HN) as [Cxys [lc [HC [HL [_ E]]]]].
  eexists. eexists. eexists. split; [exact E|].
  unfold pack; cbn [aerodynamic_center areas_reference].
  assert (Hh : l_semispan (locals w)
               = Fin (val (spans_projected w) / one_plus_R (symmetric w))).
  { unfold locals; cbn [l_semispan].
    rewrite (isfinite_val _ Hb), one_plus_fin. cbn [val].
    apply fdiv_fin. pose proof (one_plus_R_pos (symmetric w)). lra. }
  assert (HPF : Forall (fun q => finite_segment (fst q) = true
                                 /\ finite_segment (snd q) = true)
                       (panels (Segments w))).
  { apply (Forall_panels (fun g => finite_segment g = true)).
    apply Forall_forall. now apply forallb_forall. }
  split.
  - unfold normalised_center. f_equal.
    assert (HW : weighted cx_of Cxys (l_As (locals w)) = NaN).
    { unfold weighted. apply np_sum_nan.
      destruct (In_nth_error _ _ Hp) as [i Hi].
      assert (Hlt : (i < pred (length (Segments w)))%nat).
      { rewrite <- length_panels. apply nth_error_Some. now rewrite Hi. }
      destruct (centroids_nth w Cxys i HC Hlt)
        as (le & len & dx & dy & dz & tp & Ai & pm & dh
            & _ & _ & _ & _ & _ & _ & HAi & Hpm & _ & Hci).
      apply nth_error_In with (n := i).
      rewrite (nth_error_map2 _ _ _ _ _ _ Hci HAi).
      rewrite locals_panel_mac, (map_nth_error _ _ _ Hi) in Hpm.
      injection Hpm as <-.
      rewrite Forall_forall in HPF. destruct (HPF p Hp) as [Ha Hc].
      change (spans_projected w / one_plus (symmetric w))%float
        with (l_semispan (locals w)).
      rewrite Hh, (isfinite_val _ Hrc).
      rewrite zero_width_panel_mac by assumption.
      reflexivity. }
    now rewrite HW.
  - change (l_ref_area (locals w)) with (np_sum (l_As (locals w)) * f2)%float.
    rewrite locals_As, Hh, (isfinite_val _ Hrc).
    rewrite (np_sum_fin _ (panel_area_R (val (chords_root w))
               (val (spans_projected w) / one_plus_R (symmetric w)))).
    + reflexivity.
    + eapply Forall_impl; [|exact HPF].
      intros q [Ha Hc]. now apply panel_area_fin.
Qed.

Lemma zero_width_panel_center_is_nan_witness :
  exists w' y z,
    wing_segmented_planform stepped_wing = OK w'
    /\ aerodynamic_center w' = Vec3 NaN y z
    /\ isfinite (areas_reference w') = true.
Proof.
  apply (zero_width_panel_center_is_nan stepped_wing
           (seg (1 / 2) 1 0 (1 / 10) 0, seg (1 / 2) (1 / 2) 0 (1 / 10) 0)).
  - reflexivity.
  - reflexivity.
  - reflexivity.
  - right. left. reflexivity.
  - reflexivity.
Defined.

(** ** Wings without sweep *)

Lemma locals_c_4_sweep w :
  l_c_4_sweep (locals w)
  = farctan (np_sum (map (fun p => (panel_length_ndim p
                                    * ftan (Segment.sweeps_quarter_chord
                                              (fst p)))%float)
                         (panels (Segments w)))).
Proof. unfold locals. cbn [l_c_4_sweep]. panelize. reflexivity. Qed.

Lemma locals_le_sweep_total w :
  l_le_sweep_total (locals w)
  = farctan (np_sum (map (fun p => (panel_length_ndim p
                                    * ftan (panel_le_sweep (chords_root w)
                                              (l_semispan (locals w)) p))%float)
                         (panels (Segments w)))).
Proof.
  unfold locals. cbn [l_le_sweep_total l_semispan]. panelize. reflexivity.
Qed.

Lemma locals_le_sweeps w :
  l_le_sweeps (locals w)
  = map (panel_le_sweep (chords_root w) (l_semispan (locals w)))
        (panels (Segments w)).
Proof.
  unfold locals. cbn [l_le_sweeps l_semispan]. panelize. reflexivity.
Qed.

(** An untapered panel without quarter chord sweep has no leading edge
    sweep. *)
Lemma panel_le_sweep_untapered rc h p :
  finite_segment (fst p) = true -> finite_segment (snd p) = true ->
  span_loc (fst p) < span_loc (snd p) -> 0 < h ->
  chord (fst p) = chord (snd p) -> sweep (fst p) = 0 ->
  panel_le_sweep (Fin rc) (Fin h) p = Fin 0.
Proof.
  intros Ha Hb Hs Hh Hc Hw.
  destruct (finite_segment_fields _ Ha) as [Sa [Ca _]].
  destruct (finite_segment_fields _ Hb) as [Sb [Cb _]].
  destruct (finite_segment_angles _ Ha) as [Wa _].
  unfold panel_le_sweep, panel_length_dim, panel_length_ndim.
  rewrite Sa, Sb, Ca, Cb, Wa, Hc, Hw. cbn [ftan]. unfold f4.
  set (sa := span_loc (fst p)) in *. set (sb := span_loc (snd p)) in *.
  assert (HL : (sb - sa) * h <> 0).
  { assert (0 < (sb - sa) * h) by (apply Rmult_lt_0_compat; lra). lra. }
  rewrite !fsub_fin, !fmul_fin, !fdiv_fin by lra.
  rewrite fadd_fin, fsub_fin, fdiv_fin by exact HL.
  cbn [farctan]. rewrite tan_0.
  match goal with
  | |- Fin (atan ?e) = _ => replace e with 0 by (field; split; lra)
  end.
  now rewrite atan_0.
Qed.

(** X5.  A well-formed wing without quarter chord sweep (on every segment
    but the last) has the effective quarter chord sweep 0.  When it is
    untapered as well, the effective leading edge sweep is 0 and the total
    length is the last chord, [chords[-1]*RC]: [tan 0 = 0], products with 0
    and sums of zeros are 0, and [arctan 0 = 0]. *)
Theorem unswept_wing_sweeps_and_length (w : Wing) :
  valid_wing w ->
  Forall (fun g => sweep g = 0) (removelast (Segments w)) ->
  exists w',
    wing_segmented_planform w = OK w'
    /\ sweeps_quarter_chord w' = Fin 0
    /\ (forall c,
          Forall (fun g => chord g = c) (Segments w) ->
          sweeps_leading_edge w' = Fin 0
          /\ total_length w'
             = (Segment.root_chord_percent (last_segment (Segments w))
                * chords_root w)%float).
Proof.
  intros V Hw.
  destruct (planform_ok w (valid_count w V)) as [Cxys [lc [_ [_ [Hlc E]]]]].
  rewrite (getlast_map_last _ no_segment _ (valid_segments_nonempty w V))
    in Hlc.
  injection Hlc as <-. fold (last_segment (Segments w)) in E.
  pose proof (valid_panels_increasing_finite w V) as HF.
  pose proof (Forall_inboard _ _ Hw) as HW.
  eexists. split; [exact E|].
  unfold pack; cbn [sweeps_quarter_chord sweeps_leading_edge total_length].
  split.
  - rewrite locals_c_4_sweep.
    rewrite np_sum_zeros; [cbn [farctan]; now rewrite atan_0|].
    apply Forall_map. rewrite Forall_forall in *. intros p Hp.
    destruct (HF p Hp) as [Ha [Hb _]].
    destruct (finite_segment_fields _ Ha) as [Sa _].
    destruct (finite_segment_fields _ Hb) as [Sb _].
    destruct (finite_segment_angles _ Ha) as [Wa _].
    unfold panel_length_ndim. rewrite Sa, Sb, Wa, (HW p Hp). cbn [ftan].
    rewrite fsub_fin, fmul_fin, tan_0. f_equal. lra.
  - intros c Hc.
    assert (HT : l_le_sweep_total (locals w) = Fin 0).
    { rewrite locals_le_sweep_total.
      rewrite (valid_root_fin w V), (valid_semispan w V).
      rewrite np_sum_zeros; [cbn [farctan]; now rewrite atan_0|].
      apply Forall_map.
      pose proof (Forall_panels _ _ Hc) as HC.
      rewrite Forall_forall in *. intros p Hp.
      destruct (HF p Hp) as [Ha [Hb Hs]]. destruct (HC p Hp) as [C1 C2].
      rewrite (panel_le_sweep_untapered _ _ p Ha Hb Hs
                 (valid_semispan_pos w V));
        [|now rewrite C1, C2|exact (HW p Hp)].
      destruct (finite_segment_fields _ Ha) as [Sa _].
      destruct (finite_segment_fields _ Hb) as [Sb _].
      unfold panel_length_ndim. rewrite Sa, Sb. cbn [ftan].
      rewrite fsub_fin, fmul_fin, tan_0. f_equal. lra. }
    split; [exact HT|].
    rewrite HT, (valid_semispan w V), (valid_root_fin w V).
    pose proof (valid_finite w V) as HFs.
    rewrite forallb_forall in HFs.
    assert (HL : In (last_segment (Segments w)) (Segments w)).
    { unfold last_segment.
      destruct (exists_last (valid_segments_nonempty w V)) as [l' [g ->]].
      rewrite last_last. apply in_or_app. right. now left. }
    destruct (finite_segment_fields _ (HFs _ HL)) as [_ [-> _]].
    cbn [ftan]. rewrite !fmul_fin, fadd_fin, tan_0. f_equal. lra.
Qed.

Lemma unswept_wing_sweeps_and_length_witness :
  exists w',
    wing_segmented_planform (rectangular_wing true) = OK w'
    /\ sweeps_quarter_chord w' = Fin 0
    /\ (forall c,
          Forall (fun g => chord g = c) (Segments (rectangular_wing true)) ->
          sweeps_leading_edge w' = Fin 0
          /\ total_length w'
             = (Segment.root_chord_percent
                  (last_segment (Segments (rectangular_wing true)))
                * chords_root (rectangular_wing true))%float).
Proof.
  apply (unswept_wing_sweeps_and_length (rectangular_wing true)).
  - valid_wing_tac.
  - repeat constructor.
Defined.

(** ** The aerodynamic center and the panelling *)

(** X17.  The aerodynamic center depends on how a planform is cut into
    panels.  The symmetric rectangular wing of span 10 and chord 1 gets the
    reference area 10 and the mean aerodynamic chord 1 whether it is given
    as one panel or as two equal panels; its aerodynamic center is at half
    a chord with one panel and at a quarter chord with two:
    [panel_mac[i]] of line 116 grows with the span fraction of the
    panel. *)
Theorem aerodynamic_center_depends_on_panelling :
  exists w1 w2,
    wing_segmented_planform (rectangular_wing true) = OK w1
    /\ wing_segmented_planform split_rectangular_wing = OK w2
    /\ areas_reference w1 = Fin 10 /\ areas_reference w2 = Fin 10
    /\ chords_mean_aerodynamic w1 = Fin 1
    /\ chords_mean_aerodynamic w2 = Fin 1
    /\ aerodynamic_center w1 = Vec3 (Fin (1 / 2)) (Fin 0) (Fin 0)
    /\ aerodynamic_center w2 = Vec3 (Fin (1 / 4)) (Fin 0) (Fin 0).
Proof.
  eexists _, _.
  split; [unfold wing_segmented_planform; cbn; reflexivity|].
  split; [unfold wing_segmented_planform; cbn; reflexivity|].
  repeat split.
  - cbn [areas_reference pack]. fin_compute. reflexivity.
  - cbn [areas_reference pack]. fin_compute. reflexivity.
  - cbn [chords_mean_aerodynamic pack]. fin_compute. reflexivity.
  - cbn [chords_mean_aerodynamic pack]. fin_compute. reflexivity.
  - cbn [aerodynamic_center pack].
    unfold normalised_center, weighted, segment_centroid.
    fin_compute. reflexivity.
  - cbn [aerodynamic_center pack].
    unfold normalised_center, weighted, segment_centroid.
    fin_compute. reflexivity.
Qed.
